(** * DigiPort project tree exporter: the recursive walk of
    [assets/js/export-index-tree.js]

    The development embeds the walker of the script: the category table, the
    two patterns that read a page's title and sitemap marker, the record built
    for every entry, and the recursive procedure [walk] with its three
    counters and its output array.

    Modelling choices.
    - A JavaScript string is a sequence of code units; the code units of the
      model are the 256 values of [ascii] (the Latin-1 range).
    - The file system seen by [fs.readdirSync], [fs.statSync] and
      [fs.readFileSync] is a finite tree of directory entries; each of the
      three calls either returns or throws.
    - [walk] mutates [output], [folderCount], [fileCount] and [parseWarnings];
      the model threads them as a [state] and returns how the call completed.
    - Console output is not modelled. *)

From Stdlib Require Import Ascii String List ZArith Arith Bool Lia.
Import ListNotations.

Local Open Scope list_scope.

(** ** Strings *)

Definition jsstring := list ascii.

(** [str "abc"] is the JavaScript literal ['abc']. *)
Definition str (s : string) : jsstring := list_ascii_of_string s.

Definition code (c : ascii) : nat := nat_of_ascii c.

Definition dquote : ascii := "034"%char.
Definition squote : ascii := "039"%char.
Definition backslash : ascii := "092"%char.
Definition slash : ascii := "/"%char.
Definition dot : ascii := "."%char.
Definition newline : ascii := "010"%char.

Definition in_range (lo hi n : nat) : bool := (lo <=? n) && (n <=? hi).

(** [String.prototype.toLowerCase], one code unit at a time: A-Z and the
    Latin-1 capitals (all of U+00C0..U+00DE but the multiplication sign). *)
Definition lower_char (c : ascii) : ascii :=
  let n := code c in
  if in_range 65 90 n || (in_range 192 222 n && negb (n =? 215))
  then ascii_of_nat (n + 32) else c.

Definition toLowerCase (s : jsstring) : jsstring := map lower_char s.

(** White space and line terminators of the language, within the range of
    the model: TAB, LF, VT, FF, CR, SP and NBSP.  This is the class [\s] of
    a pattern and the set removed by [trim]. *)
Definition is_space (c : ascii) : bool :=
  let n := code c in in_range 9 13 n || (n =? 32) || (n =? 160).

(** Line terminators: the characters [.] does not match. *)
Definition is_line_terminator (c : ascii) : bool :=
  let n := code c in (n =? 10) || (n =? 13).

Fixpoint trimStart (s : jsstring) : jsstring :=
  match s with
  | c :: s' => if is_space c then trimStart s' else s
  | [] => []
  end.

Definition trimEnd (s : jsstring) : jsstring := rev (trimStart (rev s)).

Definition trim (s : jsstring) : jsstring := trimEnd (trimStart s).

Definition jsstring_eqb (a b : jsstring) : bool :=
  if list_eq_dec ascii_dec a b then true else false.

(** ** Patterns

    The two regular expressions of the script are sequences of four kinds of
    item.  Both carry the flag [i] and have one capturing group. *)

Inductive atom : Type :=
| Chr (c : ascii)            (* a pattern character *)
| OneOf (cs : list ascii)    (* a class of characters, [...] *)
| Spaces                     (* \s+ , greedy *)
| Group.                     (* (.*?) , the capturing group, lazy *)

Definition regex := list atom.

(** Canonicalize of a pattern with flag [i] and without flag [u]: the code
    unit of the upper-case form when that form is a single code unit and does
    not send a non-ASCII character to an ASCII one. *)
Definition Canonicalize (c : ascii) : nat :=
  let n := code c in
  if in_range 97 122 n then n - 32
  else if in_range 224 254 n && negb (n =? 247) then n - 32
  else if n =? 181 then 924
  else if n =? 255 then 376
  else n.

Definition ci_eqb (p x : ascii) : bool := Canonicalize p =? Canonicalize x.

(** The greedy loop of [\s+]: one white space character, then as many more
    as possible, giving them back one at a time while the rest of the pattern,
    [k], fails. *)
Fixpoint greedy_spaces (k : jsstring -> option jsstring) (s : jsstring)
  : option jsstring :=
  match s with
  | x :: s' =>
      if is_space x then
        match greedy_spaces k s' with
        | Some m => Some m
        | None => k s'
        end
      else None
  | [] => None
  end.

(** The lazy loop of [(.*?)]: try the rest of the pattern, [k], on the text
    captured so far, and take one more character, which must not be a line
    terminator, only when it fails. *)
Fixpoint lazy_group (k : jsstring -> jsstring -> option jsstring)
    (s : jsstring) (acc : jsstring) {struct s} : option jsstring :=
  match k s acc with
  | Some m => Some m
  | None =>
      match s with
      | x :: s' => if is_line_terminator x then None else lazy_group k s' (acc ++ [x])
      | [] => None
      end
  end.

(** [m_here r s cap] matches the items of [r] against a prefix of [s]: the
    backtracking matcher of the language, with [cap] the text captured by the
    group ([cap] is empty before the group is reached).  The result is the
    text of the group. *)
Fixpoint m_here (r : regex) (s : jsstring) (cap : jsstring) {struct r}
  : option jsstring :=
  match r with
  | [] => Some cap
  | Chr c :: r' =>
      match s with
      | x :: s' => if ci_eqb c x then m_here r' s' cap else None
      | [] => None
      end
  | OneOf cs :: r' =>
      match s with
      | x :: s' => if existsb (fun c => ci_eqb c x) cs then m_here r' s' cap else None
      | [] => None
      end
  | Spaces :: r' => greedy_spaces (fun s' => m_here r' s' cap) s
  | Group :: r' => lazy_group (m_here r') s []
  end.

(** [contents.match(re)] for a pattern without flag [g]: the leftmost start
    at which the pattern matches; [None] is [null]. *)
Fixpoint re_match (r : regex) (s : jsstring) {struct s} : option jsstring :=
  match m_here r s [] with
  | Some m => Some m
  | None =>
      match s with
      | _ :: s' => re_match r s'
      | [] => None
      end
  end.

Definition lit (s : string) : regex := map Chr (str s).

Definition quotes : atom := OneOf [dquote; squote].

(** [/<title>(.*?)<\/title>/i] *)
Definition title_re : regex :=
  lit "<title>" ++ [Group] ++ lit "</title>".

(** The sitemap pattern: [<meta], [\s+], [name=], a quote, [sitemap], a quote,
    [\s+], [content=], a quote, the group [(.*?)], a quote; flag [i].  A quote
    is the class of the double and the single quote. *)
Definition sitemap_re : regex :=
  lit "<meta" ++ [Spaces] ++ lit "name=" ++ [quotes] ++ lit "sitemap" ++ [quotes]
  ++ [Spaces] ++ lit "content=" ++ [quotes] ++ [Group] ++ [quotes].

(** ** The category table *)

Definition CATEGORY_MAP : list (jsstring * jsstring) :=
  [ (str ".html", str "markup");
    (str ".css", str "stylesheet");
    (str ".js", str "script");
    (str ".json", str "data");
    (str ".jpg", str "image");
    (str ".jpeg", str "image");
    (str ".png", str "image");
    (str ".gif", str "image");
    (str ".svg", str "image");
    (str ".ico", str "image");
    (str ".mp3", str "audio");
    (str ".wav", str "audio");
    (str ".mp4", str "video");
    (str ".txt", str "document");
    (str ".md", str "document");
    (str ".bat", str "script");
    (str ".sh", str "script") ].

(** [obj[key]] on an object literal with string values; [None] is
    [undefined].  The keys looked up by the script are extensions, which are
    empty or start with a dot, so no property inherited from
    [Object.prototype] is ever reached. *)
Fixpoint lookup (key : jsstring) (obj : list (jsstring * jsstring)) : option jsstring :=
  match obj with
  | [] => None
  | (k, v) :: obj' => if jsstring_eqb k key then Some v else lookup key obj'
  end.

(** [CATEGORY_MAP[ext] || 'unknown']: every value of the table is a non-empty
    string, hence truthy. *)
Definition category_of (ext : jsstring) : jsstring :=
  match lookup ext CATEGORY_MAP with
  | Some v => v
  | None => str "unknown"
  end.

(** ** Paths

    Every path handled by [walk] is [projectRoot] extended by the names of
    the entries walked through, so a path is represented by the list of these
    names.  Node's [path] module is not part of the script; on such paths
    [path.join(dir, name)] appends a component, and
    [path.relative(projectRoot, p)] is the components of [p] below the root
    joined by the separator of the host. *)

Inductive platform : Type := posix | win32.

Definition fspath := list jsstring.

Definition path_sep (P : platform) : ascii :=
  match P with posix => slash | win32 => backslash end.

Definition path_join (dir : fspath) (name : jsstring) : fspath := dir ++ [name].

Fixpoint join_with (sep : ascii) (parts : list jsstring) : jsstring :=
  match parts with
  | [] => []
  | [p] => p
  | p :: ps => p ++ sep :: join_with sep ps
  end.

Definition path_relative (P : platform) (to : fspath) : jsstring :=
  join_with (path_sep P) to.

(** [s.replace(/\\/g, '/')] *)
Definition replace_backslashes (s : jsstring) : jsstring :=
  map (fun c => if Ascii.eqb c backslash then slash else c) s.

(** [path.extname] of a name that is a single path component, which is what
    [fs.readdirSync] returns: the part from the last dot to the end, and the
    empty string when the name has no dot, when its last dot is its first
    character, and for the name [..]. *)
Fixpoint last_dot (s : jsstring) : option jsstring :=
  match s with
  | [] => None
  | c :: s' =>
      match last_dot s' with
      | Some e => Some e
      | None => if Ascii.eqb c dot then Some s else None
      end
  end.

Definition extname (name : jsstring) : jsstring :=
  match name with
  | [] => []
  | c :: rest =>
      match last_dot rest with
      | Some e => if jsstring_eqb name (str "..") then [] else e
      | None => []
      end
  end.

(** ** The file system *)

#[local] Set Warnings "-register-all".

(** An entry of a listing.  [Dir] is an entry whose [isDirectory()] is true,
    [File] is any other entry. *)
Inductive dirent : Type :=
| File (name : jsstring) (stat_size : option Z) (contents : option jsstring)
    (* [stat_size = None]: [fs.statSync] throws;
       [contents = None]: [fs.readFileSync] throws *)
| Dir (name : jsstring) (listing : option (list dirent)).
    (* [listing = None]: [fs.readdirSync] throws *)

Definition entry_name (e : dirent) : jsstring :=
  match e with File n _ _ => n | Dir n _ => n end.

(** ** Records and the state of the script *)

Inductive entry_type : Type := folder | file.

Record record : Type := mkRecord {
  name : jsstring;
  path : jsstring;
  type : entry_type;
  ext : option jsstring;
  size : option Z;
  title : option jsstring;
  sitemap : option jsstring;
  category : option jsstring
}.

Record state : Type := mkState {
  output : list record;
  folderCount : nat;
  fileCount : nat;
  parseWarnings : nat
}.

Definition initial : state := mkState [] 0 0 0.

Definition push (r : record) (st : state) : state :=
  mkState (output st ++ [r]) (folderCount st) (fileCount st) (parseWarnings st).

Definition incr_folderCount (st : state) : state :=
  mkState (output st) (S (folderCount st)) (fileCount st) (parseWarnings st).

Definition incr_fileCount (st : state) : state :=
  mkState (output st) (folderCount st) (S (fileCount st)) (parseWarnings st).

Definition incr_parseWarnings (st : state) : state :=
  mkState (output st) (folderCount st) (fileCount st) (S (parseWarnings st)).

Inductive fs_error : Type :=
| readdir_failed (dir : fspath)
| stat_failed (p : fspath).

Inductive completion : Type :=
| Normal
| Throw (e : fs_error).

(** ** The walk *)

(** The body of the [try] block: the title and the sitemap marker read from
    the contents of a page. *)
Definition html_title (contents : jsstring) : option jsstring :=
  match re_match title_re contents with
  | Some inner => Some (trim inner)
  | None => None
  end.

Definition html_sitemap (contents : jsstring) : jsstring :=
  match re_match sitemap_re contents with
  | Some v => toLowerCase v
  | None => str "none"
  end.

(** One turn of the [for] loop of [walk(dir)] on [entry]; the recursive call
    [walk(fullPath)] is the inner loop over the listing of the folder. *)
Fixpoint visit (P : platform) (dir : fspath) (entry : dirent) (st : state)
    {struct entry} : completion * state :=
  let fullPath := path_join dir (entry_name entry) in
  let relativePath := replace_backslashes (path_relative P fullPath) in
  match entry with
  | Dir nm listing =>
      let st1 :=
        push (mkRecord nm relativePath folder None None None None None)
          (incr_folderCount st) in
      match listing with
      | None => (Throw (readdir_failed fullPath), st1)
      | Some entries =>
          (fix each (es : list dirent) (st : state) {struct es} : completion * state :=
             match es with
             | [] => (Normal, st)
             | e :: es' =>
                 match visit P fullPath e st with
                 | (Normal, st') => each es' st'
                 | thrown => thrown
                 end
             end) entries st1
      end
  | File nm stat_size contents =>
      let st1 := incr_fileCount st in
      let ext := toLowerCase (extname nm) in
      match stat_size with
      | None => (Throw (stat_failed fullPath), st1)
      | Some sz =>
          let category := category_of ext in
          let '(title, sitemap, st2) :=
            if jsstring_eqb ext (str ".html") then
              match contents with
              | Some c => (html_title c, Some (html_sitemap c), st1)
              | None => (None, None, incr_parseWarnings st1)
              end
            else (None, None, st1) in
          (Normal,
           push (mkRecord nm relativePath file (Some ext) (Some sz) title sitemap
                   (Some category)) st2)
      end
  end.

(** The [for (const entry of entries)] loop. *)
Fixpoint for_entries (P : platform) (dir : fspath) (entries : list dirent)
    (st : state) : completion * state :=
  match entries with
  | [] => (Normal, st)
  | e :: es' =>
      match visit P dir e st with
      | (Normal, st') => for_entries P dir es' st'
      | thrown => thrown
      end
  end.

(** [walk(dir)], with the listing [fs.readdirSync(dir)] gives. *)
Definition walk (P : platform) (dir : fspath) (listing : option (list dirent))
    (st : state) : completion * state :=
  match listing with
  | None => (Throw (readdir_failed dir), st)
  | Some entries => for_entries P dir entries st
  end.

(** The run of the script: [walk(projectRoot)] from the initial state. *)
Definition run (P : platform) (root : option (list dirent)) : completion * state :=
  walk P [] root initial.

(** ** Measures of a tree

    The functions below describe a tree; they are used to state what the walk
    does and are not part of the script. *)

(** No call of [fs.readdirSync] or [fs.statSync] throws anywhere in the tree.
    Whether the contents of a file can be read plays no part. *)
Fixpoint accessible (e : dirent) : bool :=
  match e with
  | File _ (Some _) _ => true
  | File _ None _ => false
  | Dir _ (Some es) => forallb accessible es
  | Dir _ None => false
  end.

Definition sum_over {A : Type} (f : A -> nat) (l : list A) : nat :=
  fold_right (fun x n => f x + n) 0 l.

(** Files in an entry (0 or 1 for the entry itself, plus those below). *)
Fixpoint count_files (e : dirent) : nat :=
  match e with
  | File _ _ _ => 1
  | Dir _ (Some es) => sum_over count_files es
  | Dir _ None => 0
  end.

(** Folders in an entry: the entry itself when it is one, and those below. *)
Fixpoint count_folders (e : dirent) : nat :=
  match e with
  | File _ _ _ => 0
  | Dir _ (Some es) => S (sum_over count_folders es)
  | Dir _ None => 1
  end.

Definition is_html (nm : jsstring) : bool :=
  jsstring_eqb (toLowerCase (extname nm)) (str ".html").

(** Pages whose contents cannot be read. *)
Fixpoint count_unreadable_html (e : dirent) : nat :=
  match e with
  | File nm _ None => if is_html nm then 1 else 0
  | File _ _ (Some _) => 0
  | Dir _ (Some es) => sum_over count_unreadable_html es
  | Dir _ None => 0
  end.

(** The path recorded for an entry. *)
Definition relativePath_of (P : platform) (fullPath : fspath) : jsstring :=
  replace_backslashes (path_relative P fullPath).

(** The record of a folder. *)
Definition folder_record (P : platform) (dir : fspath) (nm : jsstring) : record :=
  mkRecord nm (relativePath_of P (path_join dir nm)) folder None None None None None.

(** The record of a file of size [sz]; [contents] is [None] when the file
    cannot be read. *)
Definition file_record (P : platform) (dir : fspath) (nm : jsstring) (sz : Z)
    (contents : option jsstring) : record :=
  let e := toLowerCase (extname nm) in
  let page := if is_html nm then contents else None in
  mkRecord nm (relativePath_of P (path_join dir nm)) file (Some e) (Some sz)
    (match page with Some c => html_title c | None => None end)
    (match page with Some c => Some (html_sitemap c) | None => None end)
    (Some (category_of e)).

(** The records of an entry and of everything below it, in pre-order. *)
Fixpoint entry_records (P : platform) (dir : fspath) (e : dirent) : list record :=
  match e with
  | File nm (Some sz) contents => [file_record P dir nm sz contents]
  | File _ None _ => []
  | Dir nm listing =>
      folder_record P dir nm ::
      match listing with
      | Some es => flat_map (entry_records P (path_join dir nm)) es
      | None => []
      end
  end.

Definition listing_records (P : platform) (dir : fspath) (es : list dirent) : list record :=
  flat_map (entry_records P dir) es.

(** ** Induction on trees *)

Section dirent_induction.
Variable Q : dirent -> Prop.
Hypothesis Q_file : forall nm sz c, Q (File nm sz c).
Hypothesis Q_unlisted : forall nm, Q (Dir nm None).
Hypothesis Q_dir : forall nm es, Forall Q es -> Q (Dir nm (Some es)).

Fixpoint dirent_tree_ind (e : dirent) : Q e :=
  match e with
  | File nm sz c => Q_file nm sz c
  | Dir nm None => Q_unlisted nm
  | Dir nm (Some es) =>
      Q_dir nm es
        ((fix children (l : list dirent) : Forall Q l :=
            match l with
            | [] => Forall_nil Q
            | x :: l' => Forall_cons x (dirent_tree_ind x) (children l')
            end) es)
  end.
End dirent_induction.

(** ** Names and paths of a tree *)

Definition mem (c : ascii) (s : jsstring) : bool := existsb (Ascii.eqb c) s.

(** A name [fs.readdirSync] can return on the host: a non-empty component
    other than [.] and [..], without forward slash; on Windows a name has no
    backslash either, on POSIX the backslash is an ordinary character. *)
Definition fs_name (P : platform) (nm : jsstring) : bool :=
  negb (jsstring_eqb nm []) && negb (jsstring_eqb nm (str "."))
  && negb (jsstring_eqb nm (str "..")) && negb (mem slash nm)
  && match P with posix => true | win32 => negb (mem backslash nm) end.

(** A name that is legal on both hosts. *)
Definition plain_name (nm : jsstring) : bool :=
  fs_name posix nm && negb (mem backslash nm).

Fixpoint distinct (l : list jsstring) : bool :=
  match l with
  | [] => true
  | x :: l' => negb (existsb (jsstring_eqb x) l') && distinct l'
  end.

(** Every name of the tree satisfies [ok], and no two entries of a folder
    have the same name. *)
Fixpoint well_named (ok : jsstring -> bool) (e : dirent) : bool :=
  ok (entry_name e) &&
  match e with
  | File _ _ _ => true
  | Dir _ (Some es) => distinct (map entry_name es) && forallb (well_named ok) es
  | Dir _ None => true
  end.

Definition well_named_listing (ok : jsstring -> bool) (es : list dirent) : bool :=
  distinct (map entry_name es) && forallb (well_named ok) es.

(** The entries of a tree in pre-order, each with the names that lead to it
    from the root and its kind. *)
Fixpoint entry_items (dir : fspath) (e : dirent) : list (fspath * entry_type) :=
  match e with
  | File nm (Some _) _ => [(path_join dir nm, file)]
  | File _ None _ => []
  | Dir nm listing =>
      (path_join dir nm, folder) ::
      match listing with
      | Some es => flat_map (entry_items (path_join dir nm)) es
      | None => []
      end
  end.

Definition listing_items (dir : fspath) (es : list dirent) : list (fspath * entry_type) :=
  flat_map (entry_items dir) es.

(** The segments of a path written with forward slashes. *)
Fixpoint split_slash (s : jsstring) : list jsstring :=
  match s with
  | [] => [[]]
  | c :: s' =>
      if Ascii.eqb c slash then [] :: split_slash s'
      else match split_slash s' with
           | seg :: segs => (c :: seg) :: segs
           | [] => [[c]]
           end
  end.

(** [nested_under child parent]: the path [child] is the path [parent]
    followed by a slash and more. *)
Definition nested_under (child parent : jsstring) : Prop :=
  exists rest, child = parent ++ slash :: rest.

(** [p] is a prefix of [q], as lists of names. *)
Definition extends (q p : fspath) : Prop := exists r, q = p ++ r.

(** No item of the list comes before an item whose names it extends. *)
Definition preordered (L : list (fspath * entry_type)) : Prop :=
  forall l1 x l2, L = l1 ++ x :: l2 ->
  forall y, In y l1 -> ~ extends (fst y) (fst x).

(** ** The fields of a record, as the data model describes them *)



(** What holds of every record: a folder has no extension, size, title,
    sitemap marker or category; a file has the lower-cased extension of its
    name, a size, and the category of that extension. *)
Definition record_shape (r : record) : Prop :=
  match type r with
  | folder =>
      ext r = None /\ size r = None /\ title r = None /\ sitemap r = None
      /\ category r = None
  | file =>
      ext r = Some (toLowerCase (extname (name r)))
      /\ category r = Some (category_of (toLowerCase (extname (name r))))
      /\ size r <> None
  end.

(** ** What the two patterns find, in the words of the data model *)

(** [ci_equal pat s]: [s] is the text [pat] up to the case of letters. *)
Definition ci_equal (pat s : jsstring) : Prop :=
  Forall2 (fun p x => ci_eqb p x = true) pat s.

Definition all_spaces (ws : jsstring) : Prop :=
  ws <> [] /\ forallb is_space ws = true.

(** A text without line terminator. *)
Definition one_line (s : jsstring) : Prop :=
  forallb (fun c => negb (is_line_terminator c)) s = true.

Definition is_quote (c : ascii) : bool :=
  existsb (fun q => ci_eqb q c) [dquote; squote].

Definition no_quote (s : jsstring) : Prop :=
  forallb (fun c => negb (is_quote c)) s = true.

(** [s] begins with an opening title tag, the text [inner] on one line, and
    a closing title tag. *)
Definition title_here (s inner : jsstring) : Prop :=
  exists o cl post,
    s = o ++ inner ++ cl ++ post
    /\ ci_equal (str "<title>") o /\ one_line inner /\ ci_equal (str "</title>") cl.

(** A title pair starts at offset [i] of [c]. *)
Definition title_at (c : jsstring) (i : nat) (inner : jsstring) : Prop :=
  exists pre s, c = pre ++ s /\ length pre = i /\ title_here s inner.

(** The first title pair of [c]: the leftmost opening tag that has a closing
    tag on its line, with the nearest such closing tag. *)
Definition first_title (c inner : jsstring) : Prop :=
  exists i, title_at c i inner
    /\ (forall j x, j < i -> ~ title_at c j x)
    /\ (forall x, title_at c i x -> length inner <= length x).

(** [s] begins with a sitemap tag with the name first: [<meta], white space,
    [name=], the quoted word [sitemap], white space, [content=], and the
    quoted value [v], which runs to the next quote on the line. *)
Definition sitemap_here (s v : jsstring) : Prop :=
  exists m ws1 n q1 w q2 ws2 ct q3 q4 post,
    s = m ++ ws1 ++ n ++ q1 :: w ++ q2 :: ws2 ++ ct ++ q3 :: v ++ q4 :: post
    /\ ci_equal (str "<meta") m /\ all_spaces ws1
    /\ ci_equal (str "name=") n /\ is_quote q1 = true
    /\ ci_equal (str "sitemap") w /\ is_quote q2 = true /\ all_spaces ws2
    /\ ci_equal (str "content=") ct /\ is_quote q3 = true
    /\ one_line v /\ no_quote v /\ is_quote q4 = true.

Definition sitemap_at (c : jsstring) (i : nat) (v : jsstring) : Prop :=
  exists pre s, c = pre ++ s /\ length pre = i /\ sitemap_here s v.

(** The first sitemap tag of [c]. *)
Definition first_sitemap (c v : jsstring) : Prop :=
  exists i, sitemap_at c i v /\ (forall j x, j < i -> ~ sitemap_at c j x).

(** ** Sample inputs *)

(** The page of the HTML extraction example: a title and a sitemap marker
    written with double quotes. *)
Definition hello_page : jsstring :=
  str "<title>Hello</title><meta name=" ++ [dquote] ++ str "sitemap" ++ [dquote]
  ++ str " content=" ++ [dquote] ++ str "Exclude" ++ [dquote] ++ str ">".

(** A small project: a folder with a nested folder, a page, a page that
    cannot be read, an image, and files without a known extension. *)
Definition demo_tree : list dirent :=
  [ Dir (str "assets")
      (Some [ Dir (str "js") (Some [ File (str "export-index-tree.js") (Some 7012%Z) None ]);
              File (str "x.jpg") (Some 2048%Z) None ]);
    File (str "a.html") (Some 59%Z) (Some hello_page);
    File (str "broken.HTML") (Some 10%Z) None;
    File (str "x.unknownext") (Some 1%Z) None;
    File (str "README") (Some 5%Z) (Some []) ].

(** A directory of a POSIX host in which two names contain a backslash,
    which is an ordinary character there. *)
Definition backslash_tree : list dirent :=
  [ File (str "a" ++ [backslash] ++ str "b") (Some 1%Z) None;
    Dir (str "a") (Some [ File (str "b") (Some 2%Z) None ]);
    File ([backslash] ++ str "..") (Some 3%Z) None ].

(** A page whose head title is written over three lines, followed by an
    inline drawing with a title of its own. *)
Definition two_titles_page : jsstring :=
  str "<title>" ++ [newline] ++ str "Home" ++ [newline] ++ str "</title>"
  ++ str "<svg><title>Icon</title></svg>".

(** A page whose sitemap tag has the content attribute first. *)
Definition content_first_page : jsstring :=
  str "<meta content=" ++ [dquote] ++ str "exclude" ++ [dquote]
  ++ str " name=" ++ [dquote] ++ str "sitemap" ++ [dquote] ++ str ">".

(** A page whose only title is written over three lines. *)
Definition multiline_title_page : jsstring :=
  str "<title>" ++ [newline] ++ str "Home" ++ [newline] ++ str "</title>".

(** A directory of a POSIX host, listed in byte order: a folder [a] that
    holds a folder [b] with a file [c], and a folder whose own name is [a], a
    backslash and [b]. *)
Definition shadowed_folder_tree : list dirent :=
  [ Dir (str "a") (Some [ Dir (str "b") (Some [ File (str "c") (Some 1%Z) None ]) ]);
    Dir (str "a" ++ [backslash] ++ str "b") (Some []) ].

(** A page with one sitemap tag, content attribute first, whose value is the
    text of a tag with the name first. *)
Definition tag_in_value_page : jsstring :=
  str "<meta content=" ++ [dquote]
  ++ str "<meta name='sitemap' content='gotcha'>" ++ [dquote]
  ++ str " name=" ++ [dquote] ++ str "sitemap" ++ [dquote] ++ str ">".

(** A page whose sitemap tag is written in capitals, content attribute
    first. *)
Definition capital_content_first_page : jsstring :=
  str "<META CONTENT=" ++ [dquote] ++ str "exclude" ++ [dquote]
  ++ str " NAME=" ++ [dquote] ++ str "sitemap" ++ [dquote] ++ str ">".

(** The text after the white space that follows [<meta] is not the name
    attribute: it does not go on with white space, and it does not begin, in
    any case of letters, with [name=]. *)
Definition not_name_first (rest : jsstring) : Prop :=
  (forall x t, rest = x :: t -> is_space x = false)
  /\ (forall n t, rest = n ++ t -> ~ ci_equal (str "name=") n).

(** ** Auxiliary descriptions of a run *)

(** What a call that meets no fatal error leaves in the state. *)
Definition after (recs : list record)
    (folders files warnings : nat) (st : state) : state :=
  mkState (output st ++ recs) (folderCount st + folders) (fileCount st + files)
    (parseWarnings st + warnings).

(** The path and kind of a record, and of an item of the tree. *)
Definition key_of (r : record) : jsstring * entry_type := (path r, type r).

Definition item_key (P : platform) (it : fspath * entry_type) : jsstring * entry_type :=
  (relativePath_of P (fst it), snd it).

(** A call either completes, having emitted the records of all it went
    through, or throws, having emitted the first of them. *)
Definition emits (st : state) (all : list record)
    (result : completion * state) : Prop :=
  match fst result with
  | Normal => output (snd result) = output st ++ all
  | Throw _ => exists recs rest,
      output (snd result) = output st ++ recs /\ all = recs ++ rest
  end.

(** ** Counting the records of the output *)

Definition is_folder (r : record) : bool :=
  match type r with folder => true | file => false end.

Definition is_file (r : record) : bool :=
  match type r with folder => false | file => true end.

Definition has_ext (e : string) (r : record) : bool :=
  match ext r with Some x => jsstring_eqb x (str e) | None => false end.

(** The record of a page whose contents could not be read: a file record
    with the extension of a page and no sitemap marker. *)
Definition is_unparsed (r : record) : bool :=
  is_file r && has_ext ".html" r
  && match sitemap r with None => true | Some _ => false end.

Definition count (f : record -> bool) (l : list record) : nat :=
  length (filter f l).

(** The file counted by [fileCount++] whose record was not pushed because
    [fs.statSync] threw. *)
Definition pending (c : completion) : nat :=
  match c with
  | Throw (stat_failed _) => 1
  | _ => 0
  end.

(** The counters agree with the output. *)
Definition tallied (c : completion) (st : state) : Prop :=
  folderCount st = count is_folder (output st)
  /\ fileCount st = count is_file (output st) + pending c
  /\ parseWarnings st = count is_unparsed (output st).

(** [combine st s]: the state [s] reached from the initial state, moved
    after [st]. *)
Definition combine (st s : state) : state :=
  mkState (output st ++ output s) (folderCount st + folderCount s)
    (fileCount st + fileCount s) (parseWarnings st + parseWarnings s).

(** The result of a call, moved after [st]. *)
Definition moved (st : state) (result : completion * state) : completion * state :=
  (fst result, combine st (snd result)).

(** A text that neither begins nor ends with white space. *)
Definition trimmed (t : jsstring) : Prop :=
  match t with
  | [] => True
  | c :: _ => is_space c = false /\ is_space (last t c) = false
  end.

(** * Properties of the walk *)

(** ** The definitions on small inputs *)

(** The examples of the documentation of [path.extname]. *)
Example extname_examples :
  extname (str "index.html") = str ".html"
  /\ extname (str "index.coffee.md") = str ".md"
  /\ extname (str "index.") = str "."
  /\ extname (str "index") = []
  /\ extname (str ".index") = []
  /\ extname (str ".index.md") = str ".md"
  /\ extname (str "..") = [].
Proof. repeat split. Qed.

Example trim_example :
  trim (str "  DigiPort home " ++ [newline]) = str "DigiPort home".
Proof. reflexivity. Qed.

Example title_is_case_insensitive :
  html_title (str "<HTML><TITLE> Home </Title></HTML>") = Some (str "Home").
Proof. reflexivity. Qed.

Example sitemap_with_single_quotes :
  html_sitemap (str "<META  NAME='sitemap'  CONTENT='Include'>") = str "include".
Proof. reflexivity. Qed.

Example missing_sitemap_tag : html_sitemap (str "<title>X</title>") = str "none".
Proof. reflexivity. Qed.

Example demo_tree_paths :
  map path (output (snd (run win32 (Some demo_tree)))) =
  [ str "assets"; str "assets/js"; str "assets/js/export-index-tree.js";
    str "assets/x.jpg"; str "a.html"; str "broken.HTML"; str "x.unknownext";
    str "README" ].
Proof. reflexivity. Qed.

Example content_first_tag_gives_none :
  html_sitemap content_first_page = str "none".
Proof. reflexivity. Qed.

(** A listing that cannot be read is fatal: the run stops with what it has
    recorded so far. *)
Example unlisted_folder_is_fatal :
  run posix (Some [File (str "a.txt") (Some 1%Z) None; Dir (str "locked") None;
                   File (str "b.txt") (Some 1%Z) None])
  = (Throw (readdir_failed [str "locked"]),
     mkState [file_record posix [] (str "a.txt") 1%Z None;
              folder_record posix [] (str "locked")] 1 1 0).
Proof. reflexivity. Qed.

(** ** The walk as a function of the tree *)

Lemma jsstring_eqb_eq (a b : jsstring) : jsstring_eqb a b = true <-> a = b.
Proof.
  unfold jsstring_eqb. destruct (list_eq_dec ascii_dec a b); split; congruence.
Qed.

Lemma jsstring_eqb_refl (a : jsstring) : jsstring_eqb a a = true.
Proof. now apply jsstring_eqb_eq. Qed.

Lemma jsstring_eqb_neq (a b : jsstring) : jsstring_eqb a b = false <-> a <> b.
Proof.
  unfold jsstring_eqb. destruct (list_eq_dec ascii_dec a b); split; congruence.
Qed.

(** The recursive call in [visit] is [walk] on the folder. *)
Lemma visit_Dir (P : platform) (dir : fspath) (nm : jsstring)
    (listing : option (list dirent)) (st : state) :
  visit P dir (Dir nm listing) st =
  walk P (path_join dir nm) listing
    (push (folder_record P dir nm) (incr_folderCount st)).
Proof.
  destruct listing as [es|]; [|reflexivity].
  unfold folder_record, relativePath_of. cbn [visit walk entry_name].
  generalize (push (mkRecord nm (replace_backslashes (path_relative P (path_join dir nm)))
                      folder None None None None None) (incr_folderCount st)).
  induction es as [|e es IH]; intro s; [reflexivity|].
  cbn [for_entries]. destruct (visit P (path_join dir nm) e s) as [[|err] s'].
  - apply IH.
  - reflexivity.
Qed.

Lemma visit_File (P : platform) (dir : fspath) (nm : jsstring) (sz : Z)
    (contents : option jsstring) (st : state) :
  visit P dir (File nm (Some sz) contents) st =
  (Normal,
   push (file_record P dir nm sz contents)
     (match contents with
      | Some _ => incr_fileCount st
      | None => if is_html nm then incr_parseWarnings (incr_fileCount st)
                else incr_fileCount st
      end)).
Proof.
  cbn [visit entry_name]. unfold file_record, relativePath_of, is_html.
  destruct (jsstring_eqb (toLowerCase (extname nm)) (str ".html"));
    destruct contents; reflexivity.
Qed.

Lemma after_nothing st : after [] 0 0 0 st = st.
Proof.
  destruct st; unfold after; cbn. now rewrite app_nil_r, !Nat.add_0_r.
Qed.

Lemma after_after r1 a1 b1 c1 r2 a2 b2 c2 st :
  after r2 a2 b2 c2 (after r1 a1 b1 c1 st) =
  after (r1 ++ r2) (a1 + a2) (b1 + b2) (c1 + c2) st.
Proof.
  unfold after; cbn. now rewrite app_assoc, !Nat.add_assoc.
Qed.

Lemma for_entries_accessible (P : platform) (dir : fspath) (es : list dirent) :
  Forall (fun e => accessible e = true ->
            forall st, visit P dir e st =
              (Normal, after (entry_records P dir e) (count_folders e)
                         (count_files e) (count_unreadable_html e) st)) es ->
  forallb accessible es = true ->
  forall st, for_entries P dir es st =
    (Normal, after (listing_records P dir es) (sum_over count_folders es)
               (sum_over count_files es) (sum_over count_unreadable_html es) st).
Proof.
  induction 1 as [|e es He Hes IH]; intros Hacc st.
  - cbn. now rewrite after_nothing.
  - cbn in Hacc. apply andb_prop in Hacc as [Ha Hb].
    cbn [for_entries]. rewrite (He Ha), (IH Hb), after_after. reflexivity.
Qed.

Lemma visit_accessible (P : platform) (e : dirent) :
  forall dir, accessible e = true ->
  forall st, visit P dir e st =
    (Normal, after (entry_records P dir e) (count_folders e)
               (count_files e) (count_unreadable_html e) st).
Proof.
  induction e as [nm sz c|nm|nm es IH] using dirent_tree_ind; intros dir Hacc st.
  - destruct sz as [sz|]; [|discriminate].
    rewrite visit_File. f_equal.
    destruct st as [o a b w]; unfold after, push, incr_parseWarnings, incr_fileCount; cbn.
    destruct c; destruct (is_html nm); cbn; now rewrite ?Nat.add_0_r, ?Nat.add_1_r.
  - discriminate.
  - rewrite visit_Dir. cbn [walk]. cbn in Hacc.
    rewrite for_entries_accessible; [| |exact Hacc].
    + f_equal. destruct st as [o a b w]; unfold after, push, incr_folderCount; cbn.
      unfold listing_records.
      now rewrite <- app_assoc, ?Nat.add_0_r, ?Nat.add_succ_r.
    + revert IH. apply Forall_impl. intros e He. apply He.
Qed.

Lemma walk_accessible (P : platform) (dir : fspath) (es : list dirent) (st : state) :
  forallb accessible es = true ->
  walk P dir (Some es) st =
    (Normal, after (listing_records P dir es) (sum_over count_folders es)
               (sum_over count_files es) (sum_over count_unreadable_html es) st).
Proof.
  intro Hacc. cbn [walk]. apply for_entries_accessible; [|exact Hacc].
  apply Forall_forall. intros e _ Ha st'. now apply visit_accessible.
Qed.

Lemma sum_over_cons {A : Type} (f : A -> nat) (x : A) (l : list A) :
  sum_over f (x :: l) = f x + sum_over f l.
Proof. reflexivity. Qed.

Lemma flat_map_length_sum (P : platform) (dir : fspath) (es : list dirent) :
  Forall (fun e => forall dir, accessible e = true ->
            length (entry_records P dir e) = count_files e + count_folders e) es ->
  forallb accessible es = true ->
  length (flat_map (entry_records P dir) es) =
  sum_over count_files es + sum_over count_folders es.
Proof.
  induction 1 as [|e es He Hes IH]; intro Hacc; [reflexivity|].
  cbn [forallb] in Hacc. apply andb_prop in Hacc as [Ha Hb].
  cbn [flat_map]. rewrite length_app, (He dir Ha), (IH Hb), !sum_over_cons. lia.
Qed.

Lemma entry_records_length (P : platform) (e : dirent) :
  forall dir, accessible e = true ->
  length (entry_records P dir e) = count_files e + count_folders e.
Proof.
  induction e as [nm sz c|nm|nm es IH] using dirent_tree_ind; intros dir Hacc.
  - destruct sz; [reflexivity|discriminate].
  - discriminate.
  - cbn [accessible] in Hacc. cbn [entry_records count_files count_folders length].
    rewrite (flat_map_length_sum P _ es IH Hacc). lia.
Qed.

Lemma listing_records_length (P : platform) (dir : fspath) (es : list dirent) :
  forallb accessible es = true ->
  length (listing_records P dir es) = sum_over count_files es + sum_over count_folders es.
Proof.
  apply flat_map_length_sum. apply Forall_forall. intros e _ d.
  apply entry_records_length.
Qed.

(** ** Characters and paths *)

Lemma mem_false (c : ascii) (s : jsstring) : mem c s = false <-> ~ In c s.
Proof.
  unfold mem. induction s as [|x s IH]; cbn.
  - tauto.
  - rewrite orb_false_iff, IH. destruct (Ascii.eqb_spec c x); split.
    + intros [A _]. discriminate.
    + intros H. exfalso. apply H. now left.
    + intros [_ H] [E|I]; [congruence|tauto].
    + intros H. split; [reflexivity|]. intro I. apply H. now right.
Qed.

Lemma mem_cons (c x : ascii) (s : jsstring) :
  mem c (x :: s) = Ascii.eqb c x || mem c s.
Proof. reflexivity. Qed.

Lemma mem_app (c : ascii) (a b : jsstring) : mem c (a ++ b) = mem c a || mem c b.
Proof. unfold mem. apply existsb_app. Qed.

Lemma replace_backslashes_cons (c : ascii) (s : jsstring) :
  replace_backslashes (c :: s) =
  (if Ascii.eqb c backslash then slash else c) :: replace_backslashes s.
Proof. reflexivity. Qed.

Lemma replace_backslashes_app (a b : jsstring) :
  replace_backslashes (a ++ b) = replace_backslashes a ++ replace_backslashes b.
Proof. apply map_app. Qed.

Lemma replace_backslashes_plain (s : jsstring) :
  mem backslash s = false -> replace_backslashes s = s.
Proof.
  induction s as [|c s IH]; [reflexivity|].
  rewrite mem_cons, replace_backslashes_cons, (Ascii.eqb_sym backslash c).
  intro H. apply orb_false_iff in H as [Hc Hs].
  rewrite Hc, (IH Hs). reflexivity.
Qed.

Lemma replace_backslashes_none (s : jsstring) :
  mem backslash (replace_backslashes s) = false.
Proof.
  induction s as [|c s IH]; [reflexivity|].
  rewrite replace_backslashes_cons, mem_cons, IH, orb_false_r.
  destruct (Ascii.eqb_spec c backslash) as [E|N].
  - reflexivity.
  - apply Ascii.eqb_neq. congruence.
Qed.

(** On both hosts the recorded path is the names, with their backslashes
    replaced, joined by forward slashes. *)
Lemma relativePath_of_join (P : platform) (p : fspath) :
  relativePath_of P p = join_with slash (map replace_backslashes p).
Proof.
  unfold relativePath_of, path_relative.
  induction p as [|a p IH]; [reflexivity|].
  destruct p as [|b p]; [reflexivity|].
  change (join_with (path_sep P) (a :: b :: p))
    with (a ++ path_sep P :: join_with (path_sep P) (b :: p)).
  change (join_with slash (map replace_backslashes (a :: b :: p)))
    with (replace_backslashes a ++ slash :: join_with slash (map replace_backslashes (b :: p))).
  rewrite replace_backslashes_app, replace_backslashes_cons, IH.
  now destruct P.
Qed.

Lemma map_plain (p : fspath) :
  forallb (fun nm => negb (mem backslash nm)) p = true ->
  map replace_backslashes p = p.
Proof.
  induction p as [|a p IH]; cbn; [reflexivity|].
  intro H. apply andb_prop in H as [Ha Hp].
  rewrite (IH Hp), replace_backslashes_plain; [reflexivity|].
  now destruct (mem backslash a).
Qed.

Lemma split_slash_nonempty (s : jsstring) : split_slash s <> [].
Proof.
  destruct s as [|c s]; cbn; [discriminate|].
  destruct (Ascii.eqb c slash); [discriminate|].
  destruct (split_slash s); discriminate.
Qed.

Lemma split_slash_app (a b : jsstring) :
  split_slash (a ++ slash :: b) = split_slash a ++ split_slash b.
Proof.
  induction a as [|c a IH]; [reflexivity|].
  cbn [app split_slash]. destruct (Ascii.eqb c slash).
  - now rewrite IH.
  - rewrite IH. destruct (split_slash a) as [|h t] eqn:E.
    + now destruct (split_slash_nonempty a).
    + reflexivity.
Qed.

Lemma split_slash_segment (a : jsstring) :
  mem slash a = false -> split_slash a = [a].
Proof.
  induction a as [|c a IH]; [reflexivity|].
  rewrite mem_cons, (Ascii.eqb_sym slash c). intro H.
  apply orb_false_iff in H as [Hc Ha].
  cbn [split_slash]. now rewrite Hc, (IH Ha).
Qed.

Lemma split_slash_join (p : fspath) :
  p <> [] -> forallb (fun nm => negb (mem slash nm)) p = true ->
  split_slash (join_with slash p) = p.
Proof.
  induction p as [|a p IH]; [congruence|].
  intros _ H. cbn [forallb] in H. apply andb_prop in H as [Ha Hp].
  apply negb_true_iff in Ha.
  destruct p as [|b p].
  - now apply split_slash_segment.
  - change (join_with slash (a :: b :: p)) with (a ++ slash :: join_with slash (b :: p)).
    rewrite split_slash_app, split_slash_segment by assumption.
    rewrite IH by (assumption || discriminate). reflexivity.
Qed.

(** ** Items and records of a tree *)

Lemma entry_records_items (P : platform) (e : dirent) :
  forall dir, map key_of (entry_records P dir e) = map (item_key P) (entry_items dir e).
Proof.
  induction e as [nm sz c|nm|nm es IH] using dirent_tree_ind; intro dir.
  - destruct sz; [|reflexivity]. cbn [entry_records entry_items map].
    reflexivity.
  - reflexivity.
  - cbn [entry_records entry_items map]. f_equal.
    generalize (path_join dir nm) as d. intro d.
    induction IH as [|e es He Hes IHes]; [reflexivity|].
    cbn [flat_map]. now rewrite !map_app, He, IHes.
Qed.

Lemma listing_records_items (P : platform) (dir : fspath) (es : list dirent) :
  map key_of (listing_records P dir es) = map (item_key P) (listing_items dir es).
Proof.
  unfold listing_records, listing_items.
  induction es as [|e es IH]; [reflexivity|].
  cbn [flat_map]. now rewrite !map_app, entry_records_items, IH.
Qed.

Lemma distinct_cons (x : jsstring) (l : list jsstring) :
  distinct (x :: l) = true -> ~ In x l /\ distinct l = true.
Proof.
  cbn. intro H. apply andb_prop in H as [Hx Hl]. split; [|exact Hl].
  intro I. apply negb_true_iff in Hx.
  assert (existsb (jsstring_eqb x) l = true) as E.
  { apply existsb_exists. exists x. split; [exact I|apply jsstring_eqb_refl]. }
  congruence.
Qed.

(** Every item of an entry lies at or below the entry, and the names that
    lead to it satisfy what the names of the tree satisfy. *)
Lemma entry_items_shape (ok : jsstring -> bool) (e : dirent) :
  forall dir it, well_named ok e = true -> In it (entry_items dir e) ->
  exists r, fst it = dir ++ entry_name e :: r /\ forallb ok (entry_name e :: r) = true.
Proof.
  induction e as [nm sz c|nm|nm es IH] using dirent_tree_ind; intros dir it Hwn Hin.
  - cbn in Hwn. rewrite andb_true_r in Hwn.
    destruct sz; [|contradiction]. destruct Hin as [<-|[]].
    exists []. cbn. now rewrite Hwn.
  - cbn in Hwn. rewrite andb_true_r in Hwn. destruct Hin as [<-|[]].
    exists []. cbn. now rewrite Hwn.
  - cbn [well_named entry_name] in Hwn.
    apply andb_prop in Hwn as [Hnm Hes]. apply andb_prop in Hes as [_ Hes].
    cbn [entry_items] in Hin. destruct Hin as [<-|Hin].
    + exists []. cbn. now rewrite Hnm.
    + apply in_flat_map in Hin as [e [He Hit]].
      rewrite Forall_forall in IH. rewrite forallb_forall in Hes.
      destruct (IH e He (path_join dir nm) it (Hes e He) Hit) as [r [Hr Hok]].
      exists (entry_name e :: r). cbn [entry_name]. split.
      * rewrite Hr. unfold path_join. now rewrite <- app_assoc.
      * cbn [forallb]. now rewrite Hnm.
Qed.

Lemma listing_items_shape (ok : jsstring -> bool) (dir : fspath) (es : list dirent)
    (it : fspath * entry_type) :
  forallb (well_named ok) es = true -> In it (listing_items dir es) ->
  exists e r, In e es /\ fst it = dir ++ entry_name e :: r
              /\ forallb ok (entry_name e :: r) = true.
Proof.
  intros Hes Hin. apply in_flat_map in Hin as [e [He Hit]].
  rewrite forallb_forall in Hes.
  destruct (entry_items_shape ok e dir it (Hes e He) Hit) as [r Hr].
  now exists e, r.
Qed.

(** ** Pre-order *)

Lemma preordered_single (x : fspath * entry_type) : preordered [x].
Proof.
  intros l1 x' l2 E y Hy.
  destruct l1 as [|a l1]; [contradiction|].
  destruct l1; discriminate.
Qed.

Lemma preordered_nil : preordered [].
Proof. intros l1 x l2 E. destruct l1; discriminate. Qed.

Lemma preordered_app (A B : list (fspath * entry_type)) :
  preordered A -> preordered B ->
  (forall x y, In x B -> In y A -> ~ extends (fst y) (fst x)) ->
  preordered (A ++ B).
Proof.
  intros HA HB Hcross l1 x l2 E y Hy.
  symmetry in E. apply app_eq_app in E as [l [[E1 E2]|[E1 E2]]].
  - subst l1. apply in_app_or in Hy as [Hy|Hy].
    + apply Hcross; [|assumption]. rewrite E2. apply in_or_app. right. now left.
    + apply (HB l x l2 E2 y Hy).
  - destruct l as [|z l].
    + rewrite app_nil_r in E1. subst l1. cbn in E2. subst B.
      apply Hcross; [now left|assumption].
    + injection E2 as Ex El. subst z. apply (HA l1 x l E1 y Hy).
Qed.

Lemma same_head (dir : fspath) (n n' : jsstring) (r1 r2 r : fspath) :
  dir ++ n :: r1 = (dir ++ n' :: r2) ++ r -> n = n'.
Proof.
  rewrite <- app_assoc. intro E. apply app_inv_head in E. now injection E.
Qed.

Lemma listing_items_preordered (ok : jsstring -> bool) (dir : fspath) (es : list dirent) :
  Forall (fun e => forall d, well_named ok e = true -> preordered (entry_items d e)) es ->
  well_named_listing ok es = true ->
  preordered (listing_items dir es).
Proof.
  unfold well_named_listing, listing_items.
  induction 1 as [|e es He Hes IH]; intro Hwn.
  - apply preordered_nil.
  - apply andb_prop in Hwn as [Hd Hall]. cbn [map] in Hd.
    apply distinct_cons in Hd as [Hfresh Hd].
    cbn [forallb] in Hall. apply andb_prop in Hall as [Hwe Hall].
    cbn [flat_map]. apply preordered_app.
    + now apply He.
    + apply IH. now rewrite Hd, Hall.
    + intros x y Hx Hy [r Hext].
      destruct (listing_items_shape ok dir es x Hall Hx) as [e' [r' [He' [Hx' _]]]].
      destruct (entry_items_shape ok e dir y Hwe Hy) as [r'' [Hy' _]].
      rewrite Hx', Hy' in Hext. apply same_head in Hext.
      apply Hfresh. rewrite Hext. now apply in_map.
Qed.

Lemma entry_items_preordered (ok : jsstring -> bool) (e : dirent) :
  forall dir, well_named ok e = true -> preordered (entry_items dir e).
Proof.
  induction e as [nm sz c|nm|nm es IH] using dirent_tree_ind; intros dir Hwn.
  - destruct sz; [apply preordered_single|apply preordered_nil].
  - apply preordered_single.
  - cbn [well_named entry_name] in Hwn. apply andb_prop in Hwn as [_ Hwn].
    cbn [entry_items].
    change ((path_join dir nm, folder) :: flat_map (entry_items (path_join dir nm)) es)
      with ([(path_join dir nm, folder)] ++ listing_items (path_join dir nm) es).
    apply preordered_app.
    + apply preordered_single.
    + now apply (listing_items_preordered ok).
    + intros x y Hx [<-|[]] [r Hext]. cbn [fst] in Hext.
      apply andb_prop in Hwn as [_ Hall].
      destruct (listing_items_shape ok _ es x Hall Hx) as [e' [r' [_ [Hx' _]]]].
      rewrite Hx', <- app_assoc in Hext.
      rewrite <- (app_nil_r (path_join dir nm)) in Hext at 1.
      apply app_inv_head in Hext. discriminate.
Qed.

Lemma well_named_listing_preordered (ok : jsstring -> bool) (dir : fspath)
    (es : list dirent) :
  well_named_listing ok es = true -> preordered (listing_items dir es).
Proof.
  apply listing_items_preordered. apply Forall_forall. intros e _ d.
  apply entry_items_preordered.
Qed.

(** In a pre-ordered list an item whose names extend those of another item
    comes after it. *)
Lemma preordered_index (L : list (fspath * entry_type)) (i j : nat)
    (x y : fspath * entry_type) :
  preordered L -> nth_error L i = Some x -> nth_error L j = Some y ->
  extends (fst y) (fst x) -> i <> j -> i < j.
Proof.
  intros HL Hi Hj Hext Hne.
  destruct (Nat.lt_ge_cases i j) as [Hlt|Hge]; [exact Hlt|exfalso].
  assert (j < i) as Hji by lia.
  apply nth_error_split in Hi as [l1 [l2 [E Hlen]]].
  apply (HL l1 x l2 E y); [|exact Hext].
  rewrite E, nth_error_app1 in Hj by lia.
  now apply nth_error_In in Hj.
Qed.

Lemma preordered_NoDup (L : list (fspath * entry_type)) :
  preordered L -> NoDup (map fst L).
Proof.
  induction L as [|x L IH] using rev_ind; intro HL; [constructor|].
  rewrite map_app. cbn [map].
  apply NoDup_app; [apply IH| |].
  - intros l1 x' l2 E. apply (HL l1 x' (l2 ++ [x])).
    now rewrite E, <- app_assoc.
  - repeat constructor. intros [].
  - intros p Hp [<-|[]]. apply in_map_iff in Hp as [y [Ey Hy]].
    apply (HL L x [] eq_refl y Hy). exists []. now rewrite app_nil_r, Ey.
Qed.

(** ** What a run leaves in [output], whether it completes or not *)

Lemma for_entries_emits (P : platform) (dir : fspath) (es : list dirent) :
  Forall (fun e => forall d st, emits st (entry_records P d e) (visit P d e st)) es ->
  forall st, emits st (listing_records P dir es) (for_entries P dir es st).
Proof.
  unfold listing_records, emits.
  induction 1 as [|e es He Hes IH]; intro st.
  - cbn. now rewrite app_nil_r.
  - cbn [for_entries flat_map]. specialize (He dir st).
    destruct (visit P dir e st) as [[|err] st']; cbn [fst snd] in He |- *.
    + specialize (IH st').
      destruct (for_entries P dir es st') as [[|err] st'']; cbn [fst snd] in IH |- *.
      * now rewrite IH, He, app_assoc.
      * destruct IH as [recs [rest [Ho Hr]]].
        exists (entry_records P dir e ++ recs), rest.
        now rewrite Ho, He, Hr, !app_assoc.
    + destruct He as [recs [rest [Ho Hr]]].
      exists recs, (rest ++ flat_map (entry_records P dir) es).
      now rewrite Ho, Hr, app_assoc.
Qed.

Lemma visit_emits (P : platform) (e : dirent) :
  forall dir st, emits st (entry_records P dir e) (visit P dir e st).
Proof.
  induction e as [nm sz c|nm|nm es IH] using dirent_tree_ind; intros dir st.
  - destruct sz as [sz|].
    + rewrite visit_File. unfold emits, push. cbn [fst snd output entry_records].
      destruct c; [|destruct (is_html nm)]; reflexivity.
    + unfold emits. cbn. exists [], []. now rewrite app_nil_r.
  - unfold emits. cbn. exists [folder_record P dir nm], []. split; reflexivity.
  - rewrite visit_Dir. cbn [walk entry_records].
    pose proof (for_entries_emits P (path_join dir nm) es IH
                  (push (folder_record P dir nm) (incr_folderCount st))) as H.
    unfold emits, listing_records in H |- *.
    destruct (for_entries P (path_join dir nm) es
                (push (folder_record P dir nm) (incr_folderCount st))) as [[|err] st'];
      cbn [fst snd push output incr_folderCount] in H |- *.
    + now rewrite H, <- app_assoc.
    + destruct H as [recs [rest [Ho Hr]]].
      exists (folder_record P dir nm :: recs), rest.
      rewrite Ho, Hr, <- app_assoc. split; reflexivity.
Qed.

(** The output of a run is an initial part of the records of the tree. *)
Lemma run_output_prefix (P : platform) (root : list dirent) :
  exists rest, listing_records P [] root = output (snd (run P (Some root))) ++ rest.
Proof.
  unfold run. cbn [walk].
  pose proof (for_entries_emits P [] root) as H.
  assert (Forall (fun e => forall d st,
            emits st (entry_records P d e) (visit P d e st)) root) as HF.
  { apply Forall_forall. intros e _. apply visit_emits. }
  specialize (H HF initial). unfold emits in H.
  destruct (for_entries P [] root initial) as [[|err] st']; cbn [fst snd] in H |- *.
  - exists []. now rewrite H, app_nil_r.
  - destruct H as [recs [rest [Ho Hr]]]. exists rest. now rewrite Ho, Hr.
Qed.

Lemma run_output_In (P : platform) (root : list dirent) (r : record) :
  In r (output (snd (run P (Some root)))) -> In r (listing_records P [] root).
Proof.
  destruct (run_output_prefix P root) as [rest ->]. intro H. apply in_or_app. now left.
Qed.

Lemma run_output_nth (P : platform) (root : list dirent) (i : nat) (r : record) :
  nth_error (output (snd (run P (Some root)))) i = Some r ->
  nth_error (listing_records P [] root) i = Some r.
Proof.
  destruct (run_output_prefix P root) as [rest ->]. intro H.
  rewrite nth_error_app1; [exact H|].
  apply nth_error_Some. congruence.
Qed.

(** ** The shape of records *)

Lemma entry_records_shape (P : platform) (e : dirent) :
  forall dir r, In r (entry_records P dir e) -> record_shape r.
Proof.
  induction e as [nm sz c|nm|nm es IH] using dirent_tree_ind; intros dir r Hin.
  - destruct sz as [sz|]; [|contradiction]. destruct Hin as [<-|[]].
    unfold record_shape, file_record. cbn. repeat split. discriminate.
  - destruct Hin as [<-|[]]. unfold record_shape. cbn. tauto.
  - cbn [entry_records] in Hin. destruct Hin as [<-|Hin].
    + unfold record_shape. cbn. tauto.
    + apply in_flat_map in Hin as [e [He Hr]]. rewrite Forall_forall in IH.
      apply (IH e He _ r Hr).
Qed.

Lemma run_record_shape (P : platform) (root : list dirent) (r : record) :
  In r (output (snd (run P (Some root)))) -> record_shape r.
Proof.
  intro H. apply run_output_In in H. apply in_flat_map in H as [e [_ Hr]].
  now apply (entry_records_shape P e [] r).
Qed.

(** ** Completeness of the walk *)

(** C1. Completeness: for a tree with F files and D folders below the root
    in which every folder can be listed and every file can be stat'ed, the
    run completes and its output holds exactly F + D records, those of the
    entries below the root in pre-order; the root has no record. *)
Theorem walk_completeness (P : platform) (root : list dirent) :
  forallb accessible root = true ->
  exists st,
    run P (Some root) = (Normal, st)
    /\ output st = listing_records P [] root
    /\ length (output st) = sum_over count_files root + sum_over count_folders root
    /\ fileCount st = sum_over count_files root
    /\ folderCount st = sum_over count_folders root.
Proof.
  intro Hacc. unfold run. rewrite (walk_accessible P [] root initial Hacc).
  eexists. split; [reflexivity|]. unfold after. cbn.
  repeat split. now apply listing_records_length.
Qed.

Lemma walk_completeness_witness :
  forallb accessible demo_tree = true /\
  exists st,
    run posix (Some demo_tree) = (Normal, st)
    /\ output st = listing_records posix [] demo_tree
    /\ length (output st) = 6 + 2
    /\ fileCount st = 6
    /\ folderCount st = 2.
Proof.
  split; [reflexivity|]. apply (walk_completeness posix demo_tree). reflexivity.
Defined.

(** ** Pages that cannot be read *)

Lemma is_html_ext (nm : jsstring) :
  is_html nm = true -> toLowerCase (extname nm) = str ".html".
Proof. apply jsstring_eqb_eq. Qed.

(** C3. Isolated failure: when the contents of a page cannot be read, the
    turn of the loop completes, the file is counted, one warning is counted,
    and the record of the file is emitted with its extension, size and
    category and with neither title nor sitemap marker; and a run over a tree
    whose only failures are of this kind completes, with one warning for each
    such page. *)
Theorem unreadable_html_isolated (P : platform) (dir : fspath) (nm : jsstring)
    (sz : Z) (st : state) :
  is_html nm = true ->
  visit P dir (File nm (Some sz) None) st =
    (Normal,
     mkState
       (output st ++
        [mkRecord nm (relativePath_of P (path_join dir nm)) file
           (Some (str ".html")) (Some sz) None None (Some (str "markup"))])
       (folderCount st) (S (fileCount st)) (S (parseWarnings st)))
  /\ forall root, forallb accessible root = true ->
       exists st', run P (Some root) = (Normal, st')
                   /\ parseWarnings st' = sum_over count_unreadable_html root.
Proof.
  intro Hhtml. split.
  - rewrite visit_File, Hhtml. unfold file_record.
    rewrite Hhtml, (is_html_ext nm Hhtml). reflexivity.
  - intros root Hacc. unfold run. rewrite (walk_accessible P [] root initial Hacc).
    eexists. split; reflexivity.
Qed.

Lemma unreadable_html_isolated_witness :
  is_html (str "broken.HTML") = true /\
  visit posix [] (File (str "broken.HTML") (Some 10%Z) None) initial =
    (Normal,
     mkState
       [mkRecord (str "broken.HTML") (str "broken.HTML") file
          (Some (str ".html")) (Some 10%Z) None None (Some (str "markup"))]
       0 1 1)
  /\ exists st', run posix (Some demo_tree) = (Normal, st') /\ parseWarnings st' = 1.
Proof.
  split; [reflexivity|].
  destruct (unreadable_html_isolated posix [] (str "broken.HTML") 10%Z initial eq_refl)
    as [Hturn Hrun].
  split; [exact Hturn|]. exact (Hrun demo_tree eq_refl).
Defined.

(** ** Categories *)




(** ** Extensions *)

Lemma last_dot_None (s : jsstring) : last_dot s = None -> ~ In dot s.
Proof.
  induction s as [|c s IH]; cbn [last_dot]; [tauto|].
  destruct (last_dot s); [discriminate|].
  destruct (Ascii.eqb_spec c dot) as [E|N]; [discriminate|].
  intros _ [H|H]; [congruence|]. now apply IH.
Qed.

Lemma last_dot_Some (s e : jsstring) :
  last_dot s = Some e ->
  exists pre e', s = pre ++ dot :: e' /\ e = dot :: e' /\ ~ In dot e'.
Proof.
  revert e. induction s as [|c s IH]; intros e; cbn [last_dot]; [discriminate|].
  destruct (last_dot s) as [e0|] eqn:E0.
  - intro H. injection H as <-. destruct (IH e0 eq_refl) as [pre [e' [Hs [He Hn]]]].
    exists (c :: pre), e'. rewrite Hs. now repeat split.
  - destruct (Ascii.eqb_spec c dot) as [E|N]; [|discriminate].
    intro H. injection H as <-. exists [], s. subst c. repeat split.
    now apply last_dot_None.
Qed.

(** The extension of a name is empty, or it is the part of the name from its
    last dot, which is not the first character of the name. *)
Lemma extname_spec (nm : jsstring) :
  extname nm = [] \/
  exists pre e', pre <> [] /\ nm = pre ++ dot :: e' /\ ~ In dot e'
                 /\ extname nm = dot :: e'.
Proof.
  unfold extname. destruct nm as [|c rest]; [now left|].
  destruct (last_dot rest) as [e|] eqn:E; [|now left].
  destruct (jsstring_eqb (c :: rest) (str "..")); [now left|].
  right. destruct (last_dot_Some rest e E) as [pre [e' [Hr [He Hn]]]].
  exists (c :: pre), e'. rewrite Hr, He. repeat split; [discriminate|assumption].
Qed.

Lemma toLowerCase_dot (e : jsstring) : toLowerCase (dot :: e) = dot :: toLowerCase e.
Proof. reflexivity. Qed.

(** C6, as the code has it. The extension field of a folder record is null.
    The extension field of a file record is never null: it is the
    lower-cased extension of the name, leading dot included, and the empty
    string when the name has no extension. *)
Theorem ext_field (P : platform) (root : list dirent) (r : record) :
  In r (output (snd (run P (Some root)))) ->
  match type r with
  | folder => ext r = None
  | file =>
      ext r = Some (toLowerCase (extname (name r)))
      /\ ((extname (name r) = [] /\ ext r = Some [])
          \/ exists pre e', pre <> [] /\ name r = pre ++ dot :: e' /\ ~ In dot e'
                            /\ ext r = Some (dot :: toLowerCase e'))
  end.
Proof.
  intro Hin. apply run_record_shape in Hin. unfold record_shape in Hin.
  destruct (type r); [tauto|]. destruct Hin as [He _]. split; [exact He|].
  destruct (extname_spec (name r)) as [E|[pre [e' [Hp [Hn [Hd E]]]]]].
  - left. split; [exact E|]. now rewrite He, E.
  - right. exists pre, e'. repeat split; try assumption.
    now rewrite He, E, toLowerCase_dot.
Qed.

Lemma ext_field_witness :
  ext (folder_record posix [] (str "assets")) = None
  /\ ext (file_record posix [] (str "broken.HTML") 10%Z None) = Some (str ".html")
  /\ ext (file_record posix [] (str "README") 5%Z (Some [])) = Some [].
Proof.
  split; [|split].
  - apply (ext_field posix demo_tree (folder_record posix [] (str "assets"))).
    cbv. tauto.
  - apply (ext_field posix demo_tree (file_record posix [] (str "broken.HTML") 10%Z None)).
    cbv. tauto.
  - apply (ext_field posix demo_tree (file_record posix [] (str "README") 5%Z (Some []))).
    cbv. tauto.
Defined.

(** C6, as stated, fails on a file without extension: the file [README] of
    the sample project is recorded with the empty string as its extension,
    not with null. *)
Lemma extensionless_file_ext_not_null :
  let r := file_record posix [] (str "README") 5%Z (Some []) in
  In r (output (snd (run posix (Some demo_tree))))
  /\ type r = file /\ extname (name r) = [] /\ ext r = Some [] /\ ext r <> None.
Proof.
  cbv zeta. split; [cbv; tauto|]. repeat split. discriminate.
Qed.

(** ** Recorded paths *)

Lemma plain_name_facts (nm : jsstring) :
  plain_name nm = true ->
  nm <> [] /\ nm <> str ".." /\ mem slash nm = false /\ mem backslash nm = false.
Proof.
  unfold plain_name, fs_name. intro H.
  repeat (apply andb_prop in H as [H ?]).
  repeat match goal with
  | X : negb _ = true |- _ => apply negb_true_iff in X
  end.
  repeat split; try assumption; now apply jsstring_eqb_neq.
Qed.

Lemma plain_names_join (P : platform) (p : fspath) :
  forallb plain_name p = true -> relativePath_of P p = join_with slash p.
Proof.
  intro H. rewrite relativePath_of_join, map_plain; [reflexivity|].
  apply forallb_forall. intros nm Hnm. rewrite forallb_forall in H.
  destruct (plain_name_facts nm (H nm Hnm)) as [_ [_ [_ Hb]]]. now rewrite Hb.
Qed.

Lemma plain_names_split (p : fspath) :
  p <> [] -> forallb plain_name p = true -> split_slash (join_with slash p) = p.
Proof.
  intros Hne H. apply split_slash_join; [exact Hne|].
  apply forallb_forall. intros nm Hnm. rewrite forallb_forall in H.
  destruct (plain_name_facts nm (H nm Hnm)) as [_ [_ [Hs _]]]. now rewrite Hs.
Qed.

Lemma last_path_join (dir : fspath) (nm : jsstring) : last (path_join dir nm) [] = nm.
Proof. unfold path_join. apply last_last. Qed.

(** Every record is the record of an item of the tree. *)
Lemma entry_records_item (P : platform) (e : dirent) :
  forall dir r, In r (entry_records P dir e) ->
  exists it, In it (entry_items dir e)
             /\ path r = relativePath_of P (fst it) /\ type r = snd it
             /\ name r = last (fst it) [].
Proof.
  induction e as [nm sz c|nm|nm es IH] using dirent_tree_ind; intros dir r Hin.
  - destruct sz as [sz|]; [|contradiction]. destruct Hin as [<-|[]].
    exists (path_join dir nm, file). split; [now left|].
    cbn. now rewrite last_path_join.
  - destruct Hin as [<-|[]]. exists (path_join dir nm, folder).
    split; [now left|]. cbn. now rewrite last_path_join.
  - cbn [entry_records] in Hin. destruct Hin as [<-|Hin].
    + exists (path_join dir nm, folder). split; [now left|]. cbn.
      now rewrite last_path_join.
    + apply in_flat_map in Hin as [e [He Hr]]. rewrite Forall_forall in IH.
      destruct (IH e He _ r Hr) as [it [Hit Hrest]].
      exists it. split; [|exact Hrest]. cbn [entry_items]. right.
      apply in_flat_map. now exists e.
Qed.

Lemma listing_records_item (P : platform) (dir : fspath) (es : list dirent) (r : record) :
  In r (listing_records P dir es) ->
  exists it, In it (listing_items dir es)
             /\ path r = relativePath_of P (fst it) /\ type r = snd it
             /\ name r = last (fst it) [].
Proof.
  intro Hin. apply in_flat_map in Hin as [e [He Hr]].
  destruct (entry_records_item P e dir r Hr) as [it [Hit Hrest]].
  exists it. split; [|exact Hrest]. apply in_flat_map. now exists e.
Qed.

Lemma hd_join (p : fspath) (nm : jsstring) :
  nm <> [] -> hd_error (join_with slash (nm :: p)) = hd_error nm.
Proof.
  intro Hne. destruct nm as [|c nm]; [congruence|]. now destruct p.
Qed.

(** C7, as the code has it. When no name of the tree contains a backslash
    (names being non-empty components without slash, other than [.] and
    [..], distinct within a folder), the path of every record is the names
    that lead from the root to the entry, joined by forward slashes: it
    contains no backslash, it does not begin with a slash, and none of its
    segments is [..]. *)
Theorem path_normalized (P : platform) (root : list dirent) (r : record) :
  well_named_listing plain_name root = true ->
  In r (output (snd (run P (Some root)))) ->
  exists names,
    In (names, type r) (listing_items [] root)
    /\ names <> [] /\ forallb plain_name names = true
    /\ last names [] = name r
    /\ path r = join_with slash names
    /\ split_slash (path r) = names
    /\ mem backslash (path r) = false
    /\ hd_error (path r) <> Some slash
    /\ ~ In (str "..") (split_slash (path r)).
Proof.
  intros Hwn Hin. apply run_output_In in Hin.
  destruct (listing_records_item P [] root r Hin) as [it [Hit [Hp [Hty Hn]]]].
  apply andb_prop in Hwn as [_ Hall].
  destruct (listing_items_shape plain_name [] root it Hall Hit) as [e [r0 [_ [Hfst Hok]]]].
  cbn [app] in Hfst. exists (fst it). rewrite Hfst in *.
  assert (path r = join_with slash (entry_name e :: r0)) as Hj.
  { rewrite Hp. now apply plain_names_join. }
  assert (split_slash (path r) = entry_name e :: r0) as Hs.
  { rewrite Hj. apply plain_names_split; [discriminate|exact Hok]. }
  split; [|repeat split].
  - rewrite Hty, <- Hfst. now destruct it.
  - discriminate.
  - exact Hok.
  - now symmetry.
  - exact Hj.
  - exact Hs.
  - rewrite Hp. unfold relativePath_of. apply replace_backslashes_none.
  - cbn [forallb] in Hok. apply andb_prop in Hok as [Hhd _].
    destruct (plain_name_facts _ Hhd) as [Hne [_ [Hsl _]]].
    rewrite Hj, hd_join by exact Hne.
    destruct (entry_name e) as [|c nm]; [congruence|]. cbn [hd_error].
    rewrite mem_cons in Hsl. apply orb_false_iff in Hsl as [Hc _].
    intro E. injection E as ->. now rewrite Ascii.eqb_refl in Hc.
  - rewrite Hs. intro Hdd. rewrite forallb_forall in Hok.
    destruct (plain_name_facts _ (Hok _ Hdd)) as [_ [Hdots _]]. congruence.
Qed.

Lemma path_normalized_witness :
  well_named_listing plain_name demo_tree = true /\
  exists names,
    In (names, file) (listing_items [] demo_tree)
    /\ names <> [] /\ forallb plain_name names = true
    /\ last names [] = str "export-index-tree.js"
    /\ str "assets/js/export-index-tree.js" = join_with slash names
    /\ split_slash (str "assets/js/export-index-tree.js") = names
    /\ mem backslash (str "assets/js/export-index-tree.js") = false
    /\ hd_error (str "assets/js/export-index-tree.js") <> Some slash
    /\ ~ In (str "..") (split_slash (str "assets/js/export-index-tree.js")).
Proof.
  split; [reflexivity|].
  apply (path_normalized win32 demo_tree
           (file_record win32 [str "assets"; str "js"] (str "export-index-tree.js")
              7012%Z None)).
  - reflexivity.
  - cbv. tauto.
Defined.

(** C7, as stated, fails on a POSIX host, where a name may contain a
    backslash: the file whose name is a backslash followed by two dots is
    recorded under the path [/..], which begins with a slash and contains
    [..]; and on any host a name such as [a..b] contains two dots in a
    row. *)
Lemma backslash_name_path_begins_with_slash :
  well_named_listing (fs_name posix) backslash_tree = true
  /\ (let r := file_record posix [] ([backslash] ++ str "..") 3%Z None in
      In r (output (snd (run posix (Some backslash_tree))))
      /\ path r = str "/.."
      /\ hd_error (path r) = Some slash
      /\ In (str "..") (split_slash (path r)))
  /\ path (file_record win32 [] (str "a..b") 0%Z None) = str "a..b".
Proof.
  split; [reflexivity|]. split; [|reflexivity].
  cbv zeta. split; [cbv; tauto|]. split; [reflexivity|]. split; [reflexivity|].
  cbv. tauto.
Qed.

(** ** Uniqueness and order of the recorded paths *)

Lemma listing_items_plain (es : list dirent) (it : fspath * entry_type) :
  well_named_listing plain_name es = true -> In it (listing_items [] es) ->
  fst it <> [] /\ forallb plain_name (fst it) = true.
Proof.
  intros Hwn Hit. apply andb_prop in Hwn as [_ Hall].
  destruct (listing_items_shape plain_name [] es it Hall Hit) as [e [r [_ [Hf Hok]]]].
  cbn [app] in Hf. rewrite Hf. split; [discriminate|exact Hok].
Qed.

Lemma map_path_records (P : platform) (dir : fspath) (es : list dirent) :
  map path (listing_records P dir es) =
  map (relativePath_of P) (map fst (listing_items dir es)).
Proof.
  transitivity (map fst (map key_of (listing_records P dir es))).
  - rewrite map_map. reflexivity.
  - rewrite listing_records_items, !map_map. reflexivity.
Qed.

(** X14. When no name of the tree contains a backslash (names being
    non-empty components without slash, distinct within a folder), no two
    records of the output have the same path; and when the run meets no
    fatal error, the recorded paths are those of the entries below the root,
    each once, in pre-order. *)
Theorem paths_unique (P : platform) (root : list dirent) :
  well_named_listing plain_name root = true ->
  NoDup (map path (output (snd (run P (Some root)))))
  /\ (forallb accessible root = true ->
      map path (output (snd (run P (Some root)))) =
      map (relativePath_of P) (map fst (listing_items [] root))).
Proof.
  intro Hwn. split.
  - destruct (run_output_prefix P root) as [rest Hrest].
    apply (NoDup_app_remove_r _ (map path rest)).
    rewrite <- map_app, <- Hrest, map_path_records.
    apply NoDup_map_NoDup_ForallPairs.
    + intros a b Ha Hb E.
      apply in_map_iff in Ha as [x [<- Hx]]. apply in_map_iff in Hb as [y [<- Hy]].
      destruct (listing_items_plain root x Hwn Hx) as [Hxn Hxp].
      destruct (listing_items_plain root y Hwn Hy) as [Hyn Hyp].
      rewrite !plain_names_join in E by assumption.
      apply (f_equal split_slash) in E.
      now rewrite !plain_names_split in E by assumption.
    + apply preordered_NoDup. now apply (well_named_listing_preordered plain_name).
  - intro Hacc. unfold run. rewrite (walk_accessible P [] root initial Hacc).
    cbn [snd after output initial app]. apply map_path_records.
Qed.

Lemma paths_unique_witness :
  well_named_listing plain_name demo_tree = true /\
  NoDup (map path (output (snd (run win32 (Some demo_tree)))))
  /\ (forallb accessible demo_tree = true ->
      map path (output (snd (run win32 (Some demo_tree)))) =
      map (relativePath_of win32) (map fst (listing_items [] demo_tree))).
Proof.
  split; [reflexivity|]. apply (paths_unique win32 demo_tree). reflexivity.
Defined.

Lemma nth_error_key (P : platform) (dir : fspath) (es : list dirent) (i : nat)
    (r : record) :
  nth_error (listing_records P dir es) i = Some r ->
  exists it, nth_error (listing_items dir es) i = Some it
             /\ path r = relativePath_of P (fst it) /\ type r = snd it.
Proof.
  intro H. apply (map_nth_error key_of) in H.
  rewrite listing_records_items, nth_error_map in H.
  destruct (nth_error (listing_items dir es) i) as [it|]; [|discriminate].
  exists it. cbn in H. injection H as Hp Ht. now repeat split.
Qed.

(** X13. When no name of the tree contains a backslash (names being
    non-empty components without slash, distinct within a folder), a folder
    record comes before every record whose path is nested under its path. *)
Theorem folder_before_nested (P : platform) (root : list dirent) (i j : nat)
    (r1 r2 : record) :
  well_named_listing plain_name root = true ->
  nth_error (output (snd (run P (Some root)))) i = Some r1 ->
  nth_error (output (snd (run P (Some root)))) j = Some r2 ->
  type r1 = folder ->
  nested_under (path r2) (path r1) ->
  i < j.
Proof.
  intros Hwn Hi Hj _ [rest Hnest].
  apply run_output_nth in Hi, Hj.
  destruct (nth_error_key P [] root i r1 Hi) as [x [Hx [Hpx _]]].
  destruct (nth_error_key P [] root j r2 Hj) as [y [Hy [Hpy _]]].
  destruct (listing_items_plain root x Hwn (nth_error_In _ _ Hx)) as [Hxn Hxp].
  destruct (listing_items_plain root y Hwn (nth_error_In _ _ Hy)) as [Hyn Hyp].
  rewrite Hpx, Hpy, !plain_names_join in Hnest by assumption.
  apply (f_equal split_slash) in Hnest.
  rewrite split_slash_app, !plain_names_split in Hnest by assumption.
  apply (preordered_index (listing_items [] root) i j x y).
  - now apply (well_named_listing_preordered plain_name).
  - exact Hx.
  - exact Hy.
  - now exists (split_slash rest).
  - intros ->. rewrite Hx in Hy. injection Hy as ->.
    rewrite <- (app_nil_r (fst y)) in Hnest at 1.
    apply app_inv_head in Hnest. symmetry in Hnest.
    now apply split_slash_nonempty in Hnest.
Qed.

Lemma folder_before_nested_witness :
  well_named_listing plain_name demo_tree = true /\ 1 < 2.
Proof.
  split; [reflexivity|].
  apply (folder_before_nested win32 demo_tree 1 2
           (folder_record win32 [str "assets"] (str "js"))
           (file_record win32 [str "assets"; str "js"] (str "export-index-tree.js")
              7012%Z None)).
  - reflexivity.
  - reflexivity.
  - reflexivity.
  - reflexivity.
  - exists (str "export-index-tree.js"). reflexivity.
Defined.

(** *** A backslash in a name of a POSIX host *)

(** C2. The code breaks the order on a POSIX host when a name contains a
    backslash, which the replacement of separators turns into a slash: in
    the sample directory the folder whose name is [a], a backslash and [b]
    is recorded under the path [a/b] after the record [a/b/c] of the file
    [c], whose path is nested under it; listed the other way round, it is
    recorded under [a/b] before the folder [a] above that path. *)
Theorem backslash_folder_recorded_after_nested :
  well_named_listing (fs_name posix) shadowed_folder_tree = true
  /\ map key_of (output (snd (run posix (Some shadowed_folder_tree))))
     = [ (str "a", folder); (str "a/b", folder); (str "a/b/c", file);
         (str "a/b", folder) ]
  /\ (exists r1 r2,
        nth_error (output (snd (run posix (Some shadowed_folder_tree)))) 3 = Some r1
        /\ nth_error (output (snd (run posix (Some shadowed_folder_tree)))) 2 = Some r2
        /\ type r1 = folder /\ nested_under (path r2) (path r1) /\ ~ 3 < 2)
  /\ (exists r1 r2,
        nth_error (output (snd (run posix (Some (rev shadowed_folder_tree))))) 1 = Some r1
        /\ nth_error (output (snd (run posix (Some (rev shadowed_folder_tree))))) 0 = Some r2
        /\ type r1 = folder /\ nested_under (path r2) (path r1) /\ ~ 1 < 0).
Proof.
  split; [reflexivity|]. split; [reflexivity|]. split.
  - eexists. eexists. split; [reflexivity|]. split; [reflexivity|].
    split; [reflexivity|]. split; [|lia]. exists (str "c"). reflexivity.
  - eexists. eexists. split; [reflexivity|]. split; [reflexivity|].
    split; [reflexivity|]. split; [|lia]. exists (str "b"). reflexivity.
Qed.

(** C8. The code records two entries under one path on a POSIX host when a
    name contains a backslash: in the sample directory the folder [b] inside
    [a] and the folder whose name is [a], a backslash and [b] both have the
    path [a/b], in whichever order the directory is listed. *)
Theorem backslash_folder_shares_path :
  well_named_listing (fs_name posix) shadowed_folder_tree = true
  /\ map path (output (snd (run posix (Some shadowed_folder_tree))))
     = [str "a"; str "a/b"; str "a/b/c"; str "a/b"]
  /\ ~ NoDup (map path (output (snd (run posix (Some shadowed_folder_tree)))))
  /\ ~ NoDup (map path (output (snd (run posix (Some (rev shadowed_folder_tree)))))).
Proof.
  split; [reflexivity|]. split; [reflexivity|]. split.
  - change (map path (output (snd (run posix (Some shadowed_folder_tree)))))
      with [str "a"; str "a/b"; str "a/b/c"; str "a/b"].
    intro H. apply NoDup_cons_iff in H as [_ H].
    apply NoDup_cons_iff in H as [H _]. apply H. right. now left.
  - change (map path (output (snd (run posix (Some (rev shadowed_folder_tree))))))
      with [str "a/b"; str "a"; str "a/b"; str "a/b/c"].
    intro H. apply NoDup_cons_iff in H as [H _]. apply H. right. now left.
Qed.

(** ** The matcher *)

Lemma ci_equal_length (pat s : jsstring) : ci_equal pat s -> length s = length pat.
Proof. intro H. symmetry. exact (Forall2_length H). Qed.

(** The leftmost start. *)
Lemma re_match_Some (r : regex) (s m : jsstring) :
  re_match r s = Some m <->
  exists pre s', s = pre ++ s' /\ m_here r s' [] = Some m
    /\ forall pre1 s1, s = pre1 ++ s1 -> length pre1 < length pre ->
       m_here r s1 [] = None.
Proof.
  induction s as [|c s IH].
  - cbn [re_match]. split.
    + intro H. exists [], []. split; [reflexivity|]. split.
      * now destruct (m_here r [] []).
      * intros pre1 s1 _ Hl. cbn in Hl. lia.
    + intros [pre [s' [E [Hm _]]]].
      destruct pre; [|discriminate]. cbn in E. subst s'. now rewrite Hm.
  - cbn [re_match]. destruct (m_here r (c :: s) []) as [m0|] eqn:E0.
    + split.
      * intro H. injection H as ->. exists [], (c :: s).
        split; [reflexivity|]. split; [exact E0|].
        intros pre1 s1 _ Hl. cbn in Hl. lia.
      * intros [pre [s' [E [Hm Hmin]]]]. destruct pre as [|x pre].
        -- cbn in E. subst s'. congruence.
        -- specialize (Hmin [] (c :: s) eq_refl). cbn in Hmin.
           rewrite Hmin in E0 by lia. discriminate.
    + rewrite IH. split.
      * intros [pre [s' [E [Hm Hmin]]]]. exists (c :: pre), s'.
        split; [now rewrite E|]. split; [exact Hm|].
        intros pre1 s1 E1 Hl. destruct pre1 as [|x pre1].
        -- cbn in E1. now subst s1.
        -- cbn in E1. injection E1 as -> E1. apply (Hmin pre1 s1 E1).
           cbn in Hl. lia.
      * intros [pre [s' [E [Hm Hmin]]]]. destruct pre as [|x pre].
        -- cbn in E. subst s'. congruence.
        -- cbn in E. injection E as -> E. exists pre, s'.
           split; [exact E|]. split; [exact Hm|].
           intros pre1 s1 E1 Hl. apply (Hmin (x :: pre1) s1).
           ++ now rewrite E1.
           ++ cbn. lia.
Qed.

Lemma re_match_None (r : regex) (s : jsstring) :
  re_match r s = None <->
  forall pre s', s = pre ++ s' -> m_here r s' [] = None.
Proof.
  induction s as [|c s IH]; cbn [re_match].
  - split.
    + intros H pre s' E. destruct pre; [|discriminate]. cbn in E. subst s'.
      now destruct (m_here r [] []).
    + intro H. now rewrite (H [] [] eq_refl).
  - split.
    + intros H pre s' E. destruct (m_here r (c :: s) []) eqn:E0; [discriminate|].
      destruct pre as [|x pre].
      * cbn in E. now subst s'.
      * cbn in E. injection E as _ E. rewrite IH in H. now apply (H pre).
    + intro H. rewrite (H [] (c :: s) eq_refl). apply IH.
      intros pre s' E. apply (H (c :: pre)). now rewrite E.
Qed.

(** A run of pattern characters. *)
Lemma m_here_chars (l : jsstring) (r : regex) (s cap m : jsstring) :
  m_here (map Chr l ++ r) s cap = Some m <->
  exists o s', s = o ++ s' /\ ci_equal l o /\ m_here r s' cap = Some m.
Proof.
  revert s. induction l as [|p l IH]; intro s.
  - cbn [map app]. split.
    + intro H. exists [], s. repeat split; [constructor|exact H].
    + intros [o [s' [E [Hc Hm]]]]. inversion Hc; subst. exact Hm.
  - cbn [map app m_here]. destruct s as [|x s].
    + split; [discriminate|]. intros [o [s' [E [Hc _]]]].
      inversion Hc; subst. discriminate.
    + destruct (ci_eqb p x) eqn:Epx.
      * rewrite IH. split.
        -- intros [o [s' [E [Hc Hm]]]]. exists (x :: o), s'.
           split; [now rewrite E|]. split; [now constructor|exact Hm].
        -- intros [o [s' [E [Hc Hm]]]]. inversion Hc as [|p' x' l' o' Hpx Hc']; subst.
           cbn in E. injection E as -> ->. now exists o', s'.
      * split; [discriminate|]. intros [o [s' [E [Hc _]]]].
        inversion Hc as [|p' x' l' o' Hpx Hc']; subst.
        cbn in E. injection E as -> ->. congruence.
Qed.

(** A class of characters. *)
Lemma m_here_class (cs : list ascii) (r : regex) (s cap m : jsstring) :
  m_here (OneOf cs :: r) s cap = Some m <->
  exists x s', s = x :: s' /\ existsb (fun c => ci_eqb c x) cs = true
               /\ m_here r s' cap = Some m.
Proof.
  cbn [m_here]. destruct s as [|x s].
  - split; [discriminate|]. intros [x [s' [E _]]]. discriminate.
  - destruct (existsb (fun c => ci_eqb c x) cs) eqn:Ex.
    + split.
      * intro H. now exists x, s.
      * intros [x' [s' [E [_ Hm]]]]. now injection E as -> ->.
    + split; [discriminate|]. intros [x' [s' [E [Hx _]]]].
      injection E as -> ->. congruence.
Qed.

(** The greedy loop: what it finds is a run of white space followed by a
    match of the rest. *)
Lemma greedy_spaces_sound (k : jsstring -> option jsstring) (s m : jsstring) :
  greedy_spaces k s = Some m ->
  exists ws rest, s = ws ++ rest /\ all_spaces ws /\ k rest = Some m.
Proof.
  induction s as [|x s IH]; cbn [greedy_spaces]; [discriminate|].
  destruct (is_space x) eqn:Ex; [|discriminate].
  destruct (greedy_spaces k s) as [m0|] eqn:E0.
  - intro H. injection H as ->. destruct (IH eq_refl) as [ws [rest [E [[_ Hws] Hk]]]].
    exists (x :: ws), rest. split; [now rewrite E|]. split; [|exact Hk].
    split; [discriminate|]. cbn. now rewrite Ex, Hws.
  - intro H. exists [x], s. split; [reflexivity|]. split; [|exact H].
    split; [discriminate|]. cbn. now rewrite Ex.
Qed.

(** When the rest of the pattern cannot start on white space, the loop finds
    the match that follows a run of white space. *)
Lemma greedy_spaces_complete (k : jsstring -> option jsstring)
    (ws rest m : jsstring) :
  (forall x s', is_space x = true -> k (x :: s') = None) ->
  all_spaces ws -> k rest = Some m ->
  greedy_spaces k (ws ++ rest) = Some m.
Proof.
  intros Hk [Hne Hws] Hm. induction ws as [|x ws IH]; [congruence|].
  cbn [forallb] in Hws. apply andb_prop in Hws as [Hx Hws].
  cbn [app greedy_spaces]. rewrite Hx. destruct ws as [|y ws].
  - cbn [app]. destruct rest as [|z rest].
    + cbn. exact Hm.
    + cbn [greedy_spaces]. destruct (is_space z) eqn:Ez.
      * rewrite (Hk z rest Ez) in Hm. discriminate.
      * exact Hm.
  - rewrite IH; [reflexivity|discriminate|exact Hws].
Qed.

(** The lazy loop: the shortest text on one line after which the rest of the
    pattern matches. *)
Lemma lazy_group_Some (k : jsstring -> jsstring -> option jsstring)
    (s acc m : jsstring) :
  lazy_group k s acc = Some m <->
  exists inner rest, s = inner ++ rest /\ one_line inner
    /\ k rest (acc ++ inner) = Some m
    /\ forall inner1 rest1, s = inner1 ++ rest1 -> length inner1 < length inner ->
       k rest1 (acc ++ inner1) = None.
Proof.
  revert acc. induction s as [|x s IH]; intro acc; cbn [lazy_group].
  - destruct (k [] acc) as [m0|] eqn:E0.
    + split.
      * intro H. injection H as ->. exists [], []. rewrite (app_nil_r acc).
        repeat split; [exact E0|]. intros i1 r1 _ Hl. cbn in Hl. lia.
      * intros [inner [rest [E [_ [Hk _]]]]].
        destruct inner; [|discriminate]. cbn in E. subst rest.
        rewrite app_nil_r in Hk. congruence.
    + split; [discriminate|]. intros [inner [rest [E [_ [Hk _]]]]].
      destruct inner; [|discriminate]. cbn in E. subst rest.
      rewrite app_nil_r in Hk. congruence.
  - destruct (k (x :: s) acc) as [m0|] eqn:E0.
    + split.
      * intro H. injection H as ->. exists [], (x :: s). rewrite (app_nil_r acc).
        repeat split; [exact E0|]. intros i1 r1 _ Hl. cbn in Hl. lia.
      * intros [inner [rest [E [_ [Hk Hmin]]]]]. destruct inner as [|y inner].
        -- cbn in E. subst rest. rewrite app_nil_r in Hk. congruence.
        -- specialize (Hmin [] (x :: s) eq_refl). rewrite app_nil_r in Hmin.
           cbn in Hmin. rewrite Hmin in E0 by lia. discriminate.
    + destruct (is_line_terminator x) eqn:Ex.
      * split; [discriminate|]. intros [inner [rest [E [Hl [Hk _]]]]].
        destruct inner as [|y inner].
        -- cbn in E. subst rest. rewrite app_nil_r in Hk. congruence.
        -- cbn in E. injection E as -> _. unfold one_line in Hl. cbn in Hl.
           rewrite Ex in Hl. discriminate.
      * rewrite IH. split.
        -- intros [inner [rest [E [Hl [Hk Hmin]]]]]. exists (x :: inner), rest.
           split; [now rewrite E|]. split.
           { unfold one_line in *. cbn. now rewrite Ex, Hl. }
           split.
           { now rewrite <- app_assoc in Hk. }
           intros i1 r1 E1 Hlen. destruct i1 as [|y i1].
           ++ cbn in E1. subst r1. now rewrite app_nil_r.
           ++ cbn in E1. injection E1 as -> E1.
              specialize (Hmin i1 r1 E1). rewrite <- app_assoc in Hmin.
              apply Hmin. cbn in Hlen. lia.
        -- intros [inner [rest [E [Hl [Hk Hmin]]]]]. destruct inner as [|y inner].
           ++ cbn in E. subst rest. rewrite app_nil_r in Hk. congruence.
           ++ cbn in E. injection E as Exy E. subst y. exists inner, rest.
              split; [exact E|]. split.
              { unfold one_line in *. cbn in Hl. now rewrite Ex in Hl. }
              split.
              { now rewrite <- app_assoc. }
              intros i1 r1 E1 Hlen. rewrite <- app_assoc.
              apply (Hmin (x :: i1) r1).
              ** now rewrite E1.
              ** cbn. lia.
Qed.

Lemma lazy_group_None (k : jsstring -> jsstring -> option jsstring)
    (s acc : jsstring) :
  lazy_group k s acc = None ->
  forall inner rest, s = inner ++ rest -> one_line inner ->
  k rest (acc ++ inner) = None.
Proof.
  revert acc. induction s as [|x s IH]; intros acc H inner rest E Hl;
    cbn [lazy_group] in H.
  - destruct inner; [|discriminate]. cbn in E. subst rest. rewrite app_nil_r.
    now destruct (k [] acc).
  - destruct (k (x :: s) acc) eqn:E0; [discriminate|].
    destruct inner as [|y inner].
    + cbn in E. subst rest. now rewrite app_nil_r.
    + cbn in E. injection E as Exy E. subst y.
      unfold one_line in Hl. cbn in Hl. apply andb_prop in Hl as [Hx Hl].
      apply negb_true_iff in Hx. rewrite Hx in H.
      specialize (IH (acc ++ [x]) H inner rest E Hl).
      now rewrite <- app_assoc in IH.
Qed.

Lemma m_here_chars_end (l s cap m : jsstring) :
  m_here (map Chr l) s cap = Some m <->
  exists o post, s = o ++ post /\ ci_equal l o /\ m = cap.
Proof.
  rewrite <- (app_nil_r (map Chr l)), m_here_chars. cbn [m_here].
  split; intros [o [post [E [Hc Hm]]]]; exists o, post; repeat split;
    congruence || assumption.
Qed.

Lemma app_same_length {A : Type} (a b c d : list A) :
  a ++ b = c ++ d -> length a = length c -> a = c /\ b = d.
Proof.
  revert c. induction a as [|x a IH]; intros [|y c] E Hl; try discriminate.
  - now split.
  - cbn in E. injection E as -> E. cbn in Hl.
    destruct (IH c E) as [-> ->]; [lia|now split].
Qed.

Lemma app_shorter {A : Type} (a b c d : list A) :
  a ++ b = c ++ d -> length c <= length a -> exists e, a = c ++ e /\ d = e ++ b.
Proof.
  revert c. induction a as [|x a IH]; intros [|y c] E Hl.
  - exists []. now split.
  - cbn in Hl. lia.
  - exists (x :: a). now split.
  - cbn in E. injection E as -> E. cbn in Hl.
    destruct (IH c E) as [e [-> ->]]; [lia|]. now exists e.
Qed.

Lemma one_line_app (a b : jsstring) : one_line (a ++ b) <-> one_line a /\ one_line b.
Proof. unfold one_line. rewrite forallb_app. apply andb_true_iff. Qed.

(** ** The title pattern *)

Lemma title_re_shape :
  title_re = map Chr (str "<title>") ++ Group :: map Chr (str "</title>").
Proof. reflexivity. Qed.

Lemma m_here_title_None (s : jsstring) :
  m_here title_re s [] = None -> forall y, ~ title_here s y.
Proof.
  intros H y [o [cl [post [E [Ho [Hl Hc]]]]]].
  rewrite title_re_shape in H.
  destruct (lazy_group (m_here (map Chr (str "</title>"))) (y ++ cl ++ post) [])
    as [m|] eqn:Elg.
  - (* the loop finds a closing tag, so the pattern matches at [s] *)
    assert (m_here (map Chr (str "<title>") ++ Group :: map Chr (str "</title>")) s []
            = Some m) as Hm; [|congruence].
    apply m_here_chars. exists o, (y ++ cl ++ post). now repeat split.
  - (* the loop tries the closing tag after [y] *)
    pose proof (lazy_group_None _ _ _ Elg y (cl ++ post) eq_refl Hl) as Hk.
    cbn [app] in Hk.
    assert (m_here (map Chr (str "</title>")) (cl ++ post) y = Some y) as Hs.
    { apply m_here_chars_end. now exists cl, post. }
    congruence.
Qed.

Lemma m_here_title (s x : jsstring) :
  m_here title_re s [] = Some x <->
  title_here s x /\ forall y, title_here s y -> length x <= length y.
Proof.
  rewrite title_re_shape, m_here_chars. split.
  - intros [o [s' [E [Ho Hm]]]]. cbn [m_here] in Hm.
    apply lazy_group_Some in Hm as [inner [rest [E' [Hl [Hk Hmin]]]]].
    cbn [app] in Hk. apply m_here_chars_end in Hk as [cl [post [Er [Hc ->]]]].
    split.
    + exists o, cl, post. subst. now repeat split.
    + intros y [o' [cl' [post' [Ey [Ho' [Hl' Hc']]]]]].
      destruct (Nat.le_gt_cases (length inner) (length y)) as [Hle|Hgt]; [exact Hle|].
      exfalso. rewrite E in Ey.
      apply app_same_length in Ey as [_ Ey];
        [|now rewrite (ci_equal_length _ _ Ho), (ci_equal_length _ _ Ho')].
      specialize (Hmin y (cl' ++ post') Ey Hgt). cbn [app] in Hmin.
      assert (m_here (map Chr (str "</title>")) (cl' ++ post') y = Some y) as Hs.
      { apply m_here_chars_end. now exists cl', post'. }
      congruence.
  - intros [[o [cl [post [E [Ho [Hl Hc]]]]]] Hmin].
    exists o, (x ++ cl ++ post). split; [exact E|]. split; [exact Ho|].
    cbn [m_here]. apply lazy_group_Some. exists x, (cl ++ post).
    split; [reflexivity|]. split; [exact Hl|]. split.
    + cbn [app]. apply m_here_chars_end. now exists cl, post.
    + intros inner1 rest1 E1 Hlen. cbn [app].
      destruct (m_here (map Chr (str "</title>")) rest1 inner1) as [m|] eqn:Em;
        [exfalso|reflexivity].
      apply m_here_chars_end in Em as [cl1 [post1 [Er [Hc1 _]]]].
      destruct (app_shorter _ _ _ _ E1 (Nat.lt_le_incl _ _ Hlen)) as [e [Ex Erest]].
      assert (title_here s inner1) as Ht.
      { exists o, cl1, post1. rewrite E, E1, Er. repeat split; try assumption.
        rewrite Ex in Hl. now apply one_line_app in Hl. }
      apply Hmin in Ht. lia.
Qed.

(** The title pattern finds the first title pair. *)
Lemma re_match_title (c x : jsstring) :
  re_match title_re c = Some x <-> first_title c x.
Proof.
  rewrite re_match_Some. split.
  - intros [pre [s [E [Hm Hmin]]]]. apply m_here_title in Hm as [Hx Hshort].
    exists (length pre). split; [now exists pre, s|]. split.
    + intros j y Hj [pre1 [s1 [E1 [Hl1 Hy]]]].
      apply (m_here_title_None s1 (Hmin pre1 s1 E1 ltac:(lia)) y Hy).
    + intros y [pre1 [s1 [E1 [Hl1 Hy]]]]. rewrite E in E1.
      apply app_same_length in E1 as [_ <-]; [|lia]. now apply Hshort.
  - intros [i [[pre [s [E [Hl Hx]]]] [Hfirst Hshort]]].
    exists pre, s. split; [exact E|]. split.
    + apply m_here_title. split; [exact Hx|].
      intros y Hy. apply Hshort. now exists pre, s.
    + intros pre1 s1 E1 Hlen.
      destruct (m_here title_re s1 []) as [m|] eqn:Em; [exfalso|reflexivity].
      apply m_here_title in Em as [Hm _].
      apply (Hfirst (length pre1) m); [lia|]. now exists pre1, s1.
Qed.

Lemma re_match_title_None (c : jsstring) :
  re_match title_re c = None <-> forall i x, ~ title_at c i x.
Proof.
  rewrite re_match_None. split.
  - intros H i x [pre [s [E [_ Hx]]]]. apply (m_here_title_None s (H pre s E) x Hx).
  - intros H pre s E.
    destruct (m_here title_re s []) as [m|] eqn:Em; [exfalso|reflexivity].
    apply m_here_title in Em as [Hm _]. apply (H (length pre) m). now exists pre, s.
Qed.

(** ** The sitemap pattern *)

Lemma sitemap_re_shape :
  sitemap_re =
  map Chr (str "<meta") ++ Spaces ::
  map Chr (str "name=") ++ quotes ::
  map Chr (str "sitemap") ++ quotes :: Spaces ::
  map Chr (str "content=") ++ quotes :: Group :: [quotes].
Proof. reflexivity. Qed.

Lemma m_here_spaces (r : regex) (s cap : jsstring) :
  m_here (Spaces :: r) s cap = greedy_spaces (fun s' => m_here r s' cap) s.
Proof. reflexivity. Qed.

Lemma m_here_group (r : regex) (s cap : jsstring) :
  m_here (Group :: r) s cap = lazy_group (m_here r) s [].
Proof. reflexivity. Qed.

(** White space is no letter: a pattern character that is a letter fails on
    it. *)
Lemma space_is_no_letter (p x : ascii) :
  in_range 97 122 (code p) = true -> is_space x = true -> ci_eqb p x = false.
Proof.
  intros Hp Hx. unfold ci_eqb. apply Nat.eqb_neq.
  assert (Canonicalize p = code p - 32) as ->.
  { unfold Canonicalize. now rewrite Hp. }
  unfold in_range in Hp. apply andb_prop in Hp as [Hlo Hhi].
  apply Nat.leb_le in Hlo, Hhi.
  assert (Canonicalize x = code x /\ (code x <= 32 \/ code x = 160)) as [-> Hc].
  { unfold is_space, in_range in Hx. unfold Canonicalize, in_range.
    destruct (Nat.leb_spec 97 (code x)), (Nat.leb_spec (code x) 122),
      (Nat.leb_spec 224 (code x)), (Nat.leb_spec (code x) 254),
      (Nat.leb_spec 9 (code x)), (Nat.leb_spec (code x) 13),
      (Nat.eqb_spec (code x) 32), (Nat.eqb_spec (code x) 160),
      (Nat.eqb_spec (code x) 247), (Nat.eqb_spec (code x) 181),
      (Nat.eqb_spec (code x) 255);
      cbn in Hx |- *; try discriminate; split; try reflexivity; lia. }
  lia.
Qed.

Lemma letter_rejects_space (p : ascii) (l : jsstring) (r : regex)
    (x : ascii) (s cap : jsstring) :
  in_range 97 122 (code p) = true -> is_space x = true ->
  m_here (map Chr (p :: l) ++ r) (x :: s) cap = None.
Proof.
  intros Hp Hx. cbn [map app m_here]. now rewrite (space_is_no_letter p x Hp Hx).
Qed.

Lemma m_here_quote_end (s cap m : jsstring) :
  m_here [quotes] s cap = Some m <->
  exists q post, s = q :: post /\ is_quote q = true /\ m = cap.
Proof.
  unfold quotes. rewrite m_here_class. cbn [m_here]. unfold is_quote.
  split; intros [q [post [E [Hq Hm]]]]; exists q, post; repeat split;
    congruence || assumption.
Qed.

Lemma no_quote_from_shortest (v tail : jsstring) :
  (forall inner1 rest1, v ++ tail = inner1 ++ rest1 -> length inner1 < length v ->
     m_here [quotes] rest1 ([] ++ inner1) = None) ->
  no_quote v.
Proof.
  intro H. unfold no_quote. apply forallb_forall. intros x Hx.
  apply in_split in Hx as [a [b ->]].
  assert (m_here [quotes] (x :: b ++ tail) ([] ++ a) = None) as Hnone.
  { apply H.
    - now rewrite <- app_assoc.
    - rewrite length_app. cbn [length]. lia. }
  cbn [app] in Hnone.
  destruct (is_quote x) eqn:Eq; [|reflexivity].
  assert (m_here [quotes] (x :: b ++ tail) a = Some a) as Hs.
  { apply m_here_quote_end. now exists x, (b ++ tail). }
  congruence.
Qed.

Lemma m_here_sitemap (s v : jsstring) :
  m_here sitemap_re s [] = Some v <-> sitemap_here s v.
Proof.
  rewrite sitemap_re_shape. split.
  - intro H.
    apply m_here_chars in H as [m [s1 [E1 [Hm H]]]].
    rewrite m_here_spaces in H.
    apply greedy_spaces_sound in H as [ws1 [s2 [E2 [Hws1 H]]]].
    apply m_here_chars in H as [n [s3 [E3 [Hn H]]]].
    apply m_here_class in H as [q1 [s4 [E4 [Hq1 H]]]].
    apply m_here_chars in H as [w [s5 [E5 [Hw H]]]].
    apply m_here_class in H as [q2 [s6 [E6 [Hq2 H]]]].
    rewrite m_here_spaces in H.
    apply greedy_spaces_sound in H as [ws2 [s7 [E7 [Hws2 H]]]].
    apply m_here_chars in H as [ct [s8 [E8 [Hct H]]]].
    apply m_here_class in H as [q3 [s9 [E9 [Hq3 H]]]].
    rewrite m_here_group in H.
    apply lazy_group_Some in H as [inner [s10 [E10 [Hl [H Hmin]]]]].
    cbn [app] in H. apply m_here_quote_end in H as [q4 [post [E11 [Hq4 ->]]]].
    exists m, ws1, n, q1, w, q2, ws2, ct, q3, q4, post.
    split; [subst; reflexivity|].
    repeat split; try assumption; try apply Hws1; try apply Hws2.
    apply (no_quote_from_shortest inner s10). now rewrite <- E10.
  - intros [m [ws1 [n [q1 [w [q2 [ws2 [ct [q3 [q4 [post
      [E [Hm [Hws1 [Hn [Hq1 [Hw [Hq2 [Hws2 [Hct [Hq3 [Hl [Hnq Hq4]]]]]]]]]]]]]]]]]]]]]]].
    subst s.
    apply m_here_chars. eexists. eexists. split; [reflexivity|]. split; [exact Hm|].
    rewrite m_here_spaces. apply greedy_spaces_complete; [| exact Hws1 |].
    { intros x s' Hx. now apply (letter_rejects_space "n"%char). }
    apply m_here_chars. eexists. eexists. split; [reflexivity|]. split; [exact Hn|].
    apply m_here_class. eexists. eexists. split; [reflexivity|]. split; [exact Hq1|].
    apply m_here_chars. eexists. eexists. split; [reflexivity|]. split; [exact Hw|].
    apply m_here_class. eexists. eexists. split; [reflexivity|]. split; [exact Hq2|].
    rewrite m_here_spaces. apply greedy_spaces_complete; [| exact Hws2 |].
    { intros x s' Hx. now apply (letter_rejects_space "c"%char). }
    apply m_here_chars. eexists. eexists. split; [reflexivity|]. split; [exact Hct|].
    apply m_here_class. eexists. eexists. split; [reflexivity|]. split; [exact Hq3|].
    rewrite m_here_group. apply lazy_group_Some.
    exists v, (q4 :: post). split; [reflexivity|]. split; [exact Hl|]. split.
    + cbn [app]. apply m_here_quote_end. now exists q4, post.
    + intros inner1 rest1 E1 Hlen. cbn [app].
      destruct (m_here [quotes] rest1 inner1) as [m0|] eqn:Em; [exfalso|reflexivity].
      apply m_here_quote_end in Em as [q [post1 [Er [Hq _]]]].
      destruct (app_shorter _ _ _ _ E1 (Nat.lt_le_incl _ _ Hlen)) as [e [Ev Erest]].
      destruct e as [|y e].
      * rewrite app_nil_r in Ev. subst inner1. lia.
      * rewrite Er in Erest. cbn in Erest. injection Erest as <- _.
        unfold no_quote in Hnq. rewrite Ev, forallb_app in Hnq.
        apply andb_prop in Hnq as [_ Hnq]. cbn [forallb] in Hnq.
        rewrite Hq in Hnq. discriminate.
Qed.

(** The sitemap pattern finds the first sitemap tag. *)
Lemma re_match_sitemap (c v : jsstring) :
  re_match sitemap_re c = Some v <-> first_sitemap c v.
Proof.
  rewrite re_match_Some. split.
  - intros [pre [s [E [Hm Hmin]]]]. apply m_here_sitemap in Hm.
    exists (length pre). split; [now exists pre, s|].
    intros j y Hj [pre1 [s1 [E1 [Hl1 Hy]]]].
    apply m_here_sitemap in Hy. rewrite (Hmin pre1 s1 E1) in Hy by lia. discriminate.
  - intros [i [[pre [s [E [Hl Hv]]]] Hfirst]].
    exists pre, s. split; [exact E|]. split; [now apply m_here_sitemap|].
    intros pre1 s1 E1 Hlen.
    destruct (m_here sitemap_re s1 []) as [m|] eqn:Em; [exfalso|reflexivity].
    apply m_here_sitemap in Em. apply (Hfirst (length pre1) m); [lia|].
    now exists pre1, s1.
Qed.

Lemma re_match_sitemap_None (c : jsstring) :
  re_match sitemap_re c = None <-> forall i v, ~ sitemap_at c i v.
Proof.
  rewrite re_match_None. split.
  - intros H i v [pre [s [E [_ Hv]]]]. apply m_here_sitemap in Hv.
    rewrite (H pre s E) in Hv. discriminate.
  - intros H pre s E.
    destruct (m_here sitemap_re s []) as [m|] eqn:Em; [exfalso|reflexivity].
    apply m_here_sitemap in Em. apply (H (length pre) m). now exists pre, s.
Qed.

(** ** Title and sitemap marker of a page *)

Lemma file_record_html (P : platform) (dir : fspath) (nm : jsstring) (sz : Z)
    (c : jsstring) :
  is_html nm = true ->
  title (file_record P dir nm sz (Some c)) = html_title c
  /\ sitemap (file_record P dir nm sz (Some c)) = Some (html_sitemap c).
Proof.
  intro H. unfold file_record. rewrite H. split; reflexivity.
Qed.



(** ** A sitemap tag that does not begin with the name attribute *)

Lemma space_run_split (l1 l2 r1 r2 : jsstring) :
  forallb is_space l1 = true -> forallb is_space l2 = true ->
  (forall x t, r1 = x :: t -> is_space x = false) ->
  (forall x t, r2 = x :: t -> is_space x = false) ->
  l1 ++ r1 = l2 ++ r2 -> l1 = l2 /\ r1 = r2.
Proof.
  revert l2. induction l1 as [|x l1 IH]; intros [|y l2] H1 H2 R1 R2 E; cbn [app] in E.
  - now split.
  - exfalso. cbn [forallb] in H2. apply andb_prop in H2 as [Hy _].
    rewrite (R1 y (l2 ++ r2) E) in Hy. discriminate.
  - exfalso. cbn [forallb] in H1. apply andb_prop in H1 as [Hx _].
    rewrite (R2 x (l1 ++ r1) (eq_sym E)) in Hx. discriminate.
  - injection E as <- E. cbn [forallb] in H1, H2.
    apply andb_prop in H1 as [_ H1]. apply andb_prop in H2 as [_ H2].
    destruct (IH l2 H1 H2 R1 R2 E) as [-> ->]. now split.
Qed.

(** The pattern needs the name attribute right after [<meta] and its white
    space. *)
Lemma sitemap_here_needs_name (m ws rest x : jsstring) :
  ci_equal (str "<meta") m -> forallb is_space ws = true -> not_name_first rest ->
  ~ sitemap_here (m ++ ws ++ rest) x.
Proof.
  intros Hm Hws [Hnsp Hnn]
    [m' [ws1 [n [q1 [w [q2 [ws2 [ct [q3 [q4 [post [E [Hm' [[_ Hws1] [Hn _]]]]]]]]]]]]]]].
  apply app_same_length in E as [_ E];
    [|now rewrite (ci_equal_length _ _ Hm), (ci_equal_length _ _ Hm')].
  apply space_run_split in E as [_ E]; try assumption.
  - now apply (Hnn n _ E).
  - intros y t Ey. inversion Hn as [|p n0 l n' Hp Hn']; subst.
    cbn [app] in Ey. injection Ey as <- _.
    destruct (is_space n0) eqn:Es; [|reflexivity].
    now rewrite (space_is_no_letter "n"%char n0 eq_refl Es) in Hp.
Qed.

(** C9, as the code has it. The pattern matches at a position only when the
    text there is [<meta], white space, the name attribute with the quoted
    word [sitemap], white space, and the content attribute with its quoted
    value.  Hence it does not match at a tag, in any case of letters, in
    which [<meta] and its white space are followed by anything but the name
    attribute, such as the content attribute.  The search goes on through the
    rest of the page, the values of attributes included: the sitemap marker
    of the record is [none] when no tag with the name first starts anywhere
    else, and the lower-cased value of the first such tag otherwise. *)
Theorem sitemap_tag_needs_name_first (P : platform) (dir : fspath) (nm : jsstring)
    (sz : Z) (pre m ws rest : jsstring) :
  is_html nm = true ->
  ci_equal (str "<meta") m ->
  forallb is_space ws = true ->
  not_name_first rest ->
  let tag_on := m ++ ws ++ rest in
  let c := pre ++ tag_on in
  (forall s v, m_here sitemap_re s [] = Some v <-> sitemap_here s v)
  /\ m_here sitemap_re tag_on [] = None
  /\ ((forall i v, i <> length pre -> ~ sitemap_at c i v) ->
      sitemap (file_record P dir nm sz (Some c)) = Some (str "none"))
  /\ (forall v, first_sitemap c v ->
      sitemap (file_record P dir nm sz (Some c)) = Some (toLowerCase v)).
Proof.
  intros Hhtml Hm Hws Hrest tag_on c.
  assert (forall x, ~ sitemap_here tag_on x) as Hnot.
  { intro x. now apply sitemap_here_needs_name. }
  destruct (file_record_html P dir nm sz c Hhtml) as [_ Hrec].
  split; [apply m_here_sitemap|]. split; [|split].
  - destruct (m_here sitemap_re tag_on []) as [x|] eqn:E; [exfalso|reflexivity].
    apply m_here_sitemap in E. now apply (Hnot x).
  - intro Helse. etransitivity; [exact Hrec|]. unfold html_sitemap.
    assert (re_match sitemap_re c = None) as ->; [|reflexivity].
    apply re_match_sitemap_None. intros i v Hat.
    destruct (Nat.eq_dec i (length pre)) as [->|Hne]; [|now apply (Helse i v)].
    destruct Hat as [pre' [s [E [Hl Hs]]]]. unfold c in E.
    apply app_same_length in E as [_ E]; [|now symmetry].
    subst s. now apply (Hnot v).
  - intros v Hv. apply re_match_sitemap in Hv. etransitivity; [exact Hrec|].
    unfold html_sitemap. now rewrite Hv.
Qed.

Lemma sitemap_at_cons (a : ascii) (c : jsstring) (i : nat) (v : jsstring) :
  sitemap_at (a :: c) (S i) v -> sitemap_at c i v.
Proof.
  intros [pre [s [E [Hl Hs]]]]. destruct pre as [|b pre]; [discriminate|].
  cbn in E, Hl. injection E as _ E. exists pre, s. repeat split; [exact E|lia|exact Hs].
Qed.

Lemma capital_tag_not_name_first :
  not_name_first (str "CONTENT=" ++ [dquote] ++ str "exclude" ++ [dquote]
                  ++ str " NAME=" ++ [dquote] ++ str "sitemap" ++ [dquote] ++ str ">").
Proof.
  split.
  - intros x t E. injection E as <- _. reflexivity.
  - intros n t E Hn. inversion Hn as [|p n0 l n' Hp Hn']; subst.
    injection E as <- _. discriminate.
Defined.

Lemma ci_equal_meta_capitals : ci_equal (str "<meta") (str "<META").
Proof. repeat constructor. Defined.

Lemma sitemap_tag_needs_name_first_witness :
  is_html (str "a.html") = true /\
  m_here sitemap_re capital_content_first_page [] = None
  /\ sitemap (file_record posix [] (str "a.html") 39%Z (Some capital_content_first_page))
     = Some (str "none").
Proof.
  split; [reflexivity|].
  destruct (sitemap_tag_needs_name_first posix [] (str "a.html") 39%Z []
              (str "<META") (str " ") _
              eq_refl ci_equal_meta_capitals eq_refl capital_tag_not_name_first)
    as [_ [Hhere [Hnone _]]].
  split; [exact Hhere|]. apply Hnone.
  intros i v Hi Hat. destruct i as [|i]; [now apply Hi|].
  clear Hi. apply sitemap_at_cons in Hat. revert i v Hat.
  apply re_match_sitemap_None. reflexivity.
Defined.

(** C9, as stated, fails on a page whose only sitemap tag has the content
    attribute first when the value of that attribute holds the text of a tag
    with the name first: the pattern does not match at the tag, the search
    goes on inside the value, and the sitemap marker is [gotcha], not
    [none]. *)
Lemma tag_text_in_value_is_matched :
  tag_in_value_page =
    str "<meta" ++ str " "
    ++ (str "content=" ++ [dquote]
        ++ str "<meta name='sitemap' content='gotcha'>" ++ [dquote]
        ++ str " name=" ++ [dquote] ++ str "sitemap" ++ [dquote] ++ str ">")
  /\ is_html (str "a.html") = true
  /\ m_here sitemap_re tag_in_value_page [] = None
  /\ (let r := file_record posix [] (str "a.html") 70%Z (Some tag_in_value_page) in
      output (snd (run posix (Some [File (str "a.html") (Some 70%Z)
                                      (Some tag_in_value_page)]))) = [r]
      /\ sitemap r = Some (str "gotcha") /\ sitemap r <> Some (str "none")).
Proof.
  split; [reflexivity|]. split; [reflexivity|]. split; [reflexivity|]. cbv zeta.
  split; [reflexivity|]. split; [reflexivity|]. discriminate.
Qed.

(** ** A title written over several lines *)

Lemma line_terminator_cases (z : ascii) :
  is_line_terminator z = true -> z = newline \/ z = "013"%char.
Proof.
  unfold is_line_terminator, code. intro H. apply orb_prop in H as [H|H];
    apply Nat.eqb_eq in H; rewrite <- (ascii_nat_embedding z), H; [now left|now right].
Qed.

Lemma ci_equal_In (pat s : jsstring) (z : ascii) :
  ci_equal pat s -> In z s -> exists p, In p pat /\ ci_eqb p z = true.
Proof.
  induction 1 as [|p x pat s Hpx _ IH]; intros Hin; [contradiction|].
  destruct Hin as [->|Hin].
  - exists p. split; [now left|exact Hpx].
  - destruct (IH Hin) as [p' [Hp' Hz]]. exists p'. split; [now right|exact Hz].
Qed.

Lemma closing_tag_one_line (cl : jsstring) (z : ascii) :
  ci_equal (str "</title>") cl -> is_line_terminator z = true -> ~ In z cl.
Proof.
  intros Hcl Hz Hin. destruct (ci_equal_In _ _ z Hcl Hin) as [p [Hp Hpz]].
  destruct (line_terminator_cases z Hz) as [-> | ->];
    cbn in Hp; repeat (destruct Hp as [<-|Hp]; [discriminate|]); exact Hp.
Qed.

Lemma one_line_In (s : jsstring) (z : ascii) :
  one_line s -> is_line_terminator z = true -> ~ In z s.
Proof.
  unfold one_line. intros Hs Hz Hin. rewrite forallb_forall in Hs.
  specialize (Hs z Hin). now rewrite Hz in Hs.
Qed.

(** No title pair starts at an opening tag whose line ends before a closing
    tag. *)
Lemma title_here_not_across_lines (o line : jsstring) (nl : ascii) (rest x : jsstring) :
  ci_equal (str "<title>") o -> one_line line ->
  (forall a cl b, line = a ++ cl ++ b -> ~ ci_equal (str "</title>") cl) ->
  is_line_terminator nl = true ->
  ~ title_here (o ++ line ++ nl :: rest) x.
Proof.
  intros Ho Hline Hnone Hnl [o' [cl [post [E [Ho' [Hx Hcl]]]]]].
  apply app_same_length in E as [_ E];
    [|now rewrite (ci_equal_length _ _ Ho), (ci_equal_length _ _ Ho')].
  apply app_eq_app in E as [l [[E1 E2]|[E1 E2]]].
  - (* the line ends inside the closing tag or after it *)
    symmetry in E2. apply app_eq_app in E2 as [l2 [[E3 E4]|[E3 E4]]].
    + (* l = cl ++ l2 and post = l2 ++ nl :: rest *)
      apply (Hnone x cl l2); [|exact Hcl]. now rewrite E1, E3.
    + (* cl = l ++ l2 and nl :: rest = l2 ++ post *)
      destruct l2 as [|z l2].
      * rewrite app_nil_r in E3. subst l.
        apply (Hnone x cl []); [|exact Hcl]. now rewrite app_nil_r.
      * cbn in E4. injection E4 as Ez _. subst z.
        apply (closing_tag_one_line cl nl Hcl Hnl). rewrite E3.
        apply in_or_app. right. now left.
  - destruct l as [|z l].
    + rewrite app_nil_r in E1. cbn in E2.
      destruct cl as [|z cl]; [inversion Hcl|].
      cbn in E2. injection E2 as Ez _. subst z.
      apply (closing_tag_one_line _ nl Hcl Hnl). now left.
    + cbn in E2. injection E2 as Ez _. subst z.
      apply (one_line_In x nl Hx Hnl). rewrite E1. apply in_or_app. right. now left.
Qed.

(** C10, as the code has it. The title pattern does not match at an opening
    title tag whose line ends before a closing tag; the search goes on after
    it, and the title of the record is null exactly when no title pair
    starts anywhere else in the page. *)
Theorem multiline_title_skipped (P : platform) (dir : fspath) (nm : jsstring)
    (sz : Z) (pre o line : jsstring) (nl : ascii) (rest : jsstring) :
  is_html nm = true ->
  ci_equal (str "<title>") o ->
  one_line line ->
  (forall a cl b, line = a ++ cl ++ b -> ~ ci_equal (str "</title>") cl) ->
  is_line_terminator nl = true ->
  let s := o ++ line ++ nl :: rest in
  let c := pre ++ s in
  m_here title_re s [] = None
  /\ (title (file_record P dir nm sz (Some c)) = None <->
      forall i x, i <> length pre -> ~ title_at c i x).
Proof.
  intros Hhtml Ho Hline Hnone Hnl s c.
  assert (forall x, ~ title_here s x) as Hnot.
  { intro x. now apply title_here_not_across_lines. }
  split.
  - destruct (m_here title_re s []) as [x|] eqn:E; [exfalso|reflexivity].
    apply m_here_title in E as [E _]. now apply (Hnot x).
  - destruct (file_record_html P dir nm sz c Hhtml) as [Hrec _].
    assert (title (file_record P dir nm sz (Some c)) = None <->
            re_match title_re c = None) as ->.
    { replace (title (file_record P dir nm sz (Some c))) with (html_title c)
        by (symmetry; exact Hrec).
      unfold html_title. destruct (re_match title_re c); split; congruence. }
    rewrite re_match_title_None. split.
    + intros H i x _. apply H.
    + intros H i x Hat. destruct (Nat.eq_dec i (length pre)) as [->|Hne];
        [|now apply (H i x)].
      destruct Hat as [pre' [s' [E [Hl Hs]]]]. unfold c in E.
      apply app_same_length in E as [_ E]; [|now symmetry].
      subst s'. now apply (Hnot x).
Qed.

Lemma title_at_cons (a : ascii) (c : jsstring) (i : nat) (x : jsstring) :
  title_at (a :: c) (S i) x -> title_at c i x.
Proof.
  intros [pre [s [E [Hl Hs]]]]. destruct pre as [|b pre]; [discriminate|].
  cbn in E, Hl. injection E as _ E. exists pre, s. repeat split; [exact E|lia|exact Hs].
Qed.

Lemma ci_equal_refl_title : ci_equal (str "<title>") (str "<title>").
Proof. repeat constructor. Qed.

Lemma multiline_title_skipped_witness :
  is_html (str "a.html") = true /\
  m_here title_re multiline_title_page [] = None
  /\ title (file_record posix [] (str "a.html") 21%Z (Some multiline_title_page)) = None.
Proof.
  split; [reflexivity|].
  destruct (multiline_title_skipped posix [] (str "a.html") 21%Z []
              (str "<title>") [] newline (str "Home" ++ [newline] ++ str "</title>")
              eq_refl ci_equal_refl_title eq_refl) as [Hhere Hnull].
  - intros a cl b E Hcl. destruct a; [|discriminate]. destruct cl; [|discriminate].
    inversion Hcl.
  - reflexivity.
  - split; [exact Hhere|]. apply Hnull.
    intros i x Hi Hat. destruct i as [|i]; [now apply Hi|].
    clear Hi. apply title_at_cons in Hat. revert i x Hat.
    apply re_match_title_None. reflexivity.
Defined.

(** C10, as stated, fails on a page that has a second title after the first:
    the head title of the sample page is written over three lines, the
    pattern goes on to the title of the inline drawing, and the record has
    that title, not null. *)
Lemma later_title_is_taken :
  two_titles_page =
    str "<title>" ++ [newline] ++ str "Home" ++ [newline] ++ str "</title>"
    ++ str "<svg><title>Icon</title></svg>"
  /\ is_html (str "index.html") = true
  /\ (let r := file_record posix [] (str "index.html") 51%Z (Some two_titles_page) in
      output (snd (run posix (Some [File (str "index.html") (Some 51%Z)
                                      (Some two_titles_page)]))) = [r]
      /\ title r = Some (str "Icon") /\ title r <> None).
Proof.
  split; [reflexivity|]. split; [reflexivity|]. cbv zeta.
  split; [reflexivity|]. split; [reflexivity|]. discriminate.
Qed.

(** * Further properties of the walk *)

(** ** The counters and the output *)

Lemma count_app (f : record -> bool) (a b : list record) :
  count f (a ++ b) = count f a + count f b.
Proof. unfold count. now rewrite filter_app, length_app. Qed.

Lemma count_one (f : record -> bool) (r : record) :
  count f [r] = if f r then 1 else 0.
Proof. unfold count. cbn. now destruct (f r). Qed.

Lemma is_unparsed_file_record (P : platform) (dir : fspath) (nm : jsstring)
    (sz : Z) (contents : option jsstring) :
  is_unparsed (file_record P dir nm sz contents) =
  is_html nm && match contents with Some _ => false | None => true end.
Proof.
  unfold is_unparsed, is_file, has_ext, file_record, is_html.
  cbn [ext sitemap type andb].
  destruct (jsstring_eqb (toLowerCase (extname nm)) (str ".html"));
    destruct contents; reflexivity.
Qed.

Lemma tallied_push_folder (P : platform) (dir : fspath) (nm : jsstring) (st : state) :
  tallied Normal st ->
  tallied Normal (push (folder_record P dir nm) (incr_folderCount st)).
Proof.
  intros [Hf [Hn Hw]]. unfold tallied, push. cbn [output folderCount fileCount
    parseWarnings incr_folderCount pending] in *.
  rewrite !count_app, !count_one. cbn. lia.
Qed.

Lemma tallied_push_file (P : platform) (dir : fspath) (nm : jsstring) (sz : Z)
    (contents : option jsstring) (st : state) :
  tallied Normal st ->
  tallied Normal
    (push (file_record P dir nm sz contents)
       (match contents with
        | Some _ => incr_fileCount st
        | None => if is_html nm then incr_parseWarnings (incr_fileCount st)
                  else incr_fileCount st
        end)).
Proof.
  intros [Hf [Hn Hw]]. cbn [pending] in Hn.
  assert (is_folder (file_record P dir nm sz contents) = false) as Efo by reflexivity.
  assert (is_file (file_record P dir nm sz contents) = true) as Efi by reflexivity.
  pose proof (is_unparsed_file_record P dir nm sz contents) as Eun.
  destruct contents as [c|]; [|destruct (is_html nm)];
    unfold tallied, push;
    cbn [output folderCount fileCount parseWarnings incr_fileCount
         incr_parseWarnings pending];
    rewrite !count_app, !count_one, Efo, Efi, Eun, ?andb_false_r; cbn [andb]; lia.
Qed.

Lemma for_entries_tallied (P : platform) (dir : fspath) (es : list dirent) :
  Forall (fun e => forall d st, tallied Normal st ->
            tallied (fst (visit P d e st)) (snd (visit P d e st))) es ->
  forall st, tallied Normal st ->
  tallied (fst (for_entries P dir es st)) (snd (for_entries P dir es st)).
Proof.
  induction 1 as [|e es He Hes IH]; intros st Hst; [exact Hst|].
  cbn [for_entries]. specialize (He dir st Hst).
  destruct (visit P dir e st) as [[|err] st']; cbn [fst snd] in He |- *.
  - now apply IH.
  - exact He.
Qed.

Lemma visit_tallied (P : platform) (e : dirent) :
  forall dir st, tallied Normal st ->
  tallied (fst (visit P dir e st)) (snd (visit P dir e st)).
Proof.
  induction e as [nm sz c|nm|nm es IH] using dirent_tree_ind; intros dir st Hst.
  - destruct sz as [sz|].
    + rewrite visit_File. cbn [fst snd]. now apply tallied_push_file.
    + destruct Hst as [Hf [Hn Hw]]. cbn [pending] in Hn. cbn [visit fst snd].
      unfold tallied.
      cbn [pending output folderCount fileCount parseWarnings incr_fileCount]. lia.
  - rewrite visit_Dir. cbn [walk fst snd].
    pose proof (tallied_push_folder P dir nm st Hst) as [Hf [Hn Hw]].
    unfold tallied. cbn [pending] in *. lia.
  - rewrite visit_Dir. cbn [walk].
    apply for_entries_tallied; [exact IH|]. now apply tallied_push_folder.
Qed.

Lemma run_tallied (P : platform) (root : option (list dirent)) :
  tallied (fst (run P root)) (snd (run P root)).
Proof.
  assert (tallied Normal initial) as H0 by (repeat split).
  destruct root as [es|]; [|exact H0].
  unfold run. cbn [walk]. apply for_entries_tallied; [|exact H0].
  apply Forall_forall. intros e _. apply visit_tallied.
Qed.

(** X1. Whether the run completes or throws, [folderCount] is the number of
    folder records in the output. *)
Theorem folderCount_counts_folder_records (P : platform)
    (root : option (list dirent)) :
  folderCount (snd (run P root)) = count is_folder (output (snd (run P root))).
Proof. apply run_tallied. Qed.

Lemma count_folder_file (l : list record) :
  count is_folder l + count is_file l = length l.
Proof.
  unfold count. induction l as [|r l IH]; [reflexivity|].
  cbn [filter]. destruct (is_folder r) eqn:E1, (is_file r) eqn:E2; cbn [length];
    try lia; unfold is_folder, is_file in E1, E2; destruct (type r); discriminate.
Qed.

(** X2. [fileCount] is the number of file records in the output, plus one
    when the run stopped on a file that could not be stat'ed; so when the run
    completes, the two counts of the summary add up to the number of
    records. *)
Theorem fileCount_counts_file_records (P : platform) (root : option (list dirent)) :
  fileCount (snd (run P root))
    = count is_file (output (snd (run P root))) + pending (fst (run P root))
  /\ (fst (run P root) = Normal ->
      folderCount (snd (run P root)) + fileCount (snd (run P root))
      = length (output (snd (run P root)))).
Proof.
  destruct (run_tallied P root) as [Hf [Hn Hw]]. split; [exact Hn|].
  intro Hc. rewrite Hc in Hn. cbn [pending] in Hn.
  rewrite Hf, Hn, Nat.add_0_r. apply count_folder_file.
Qed.

Lemma fileCount_counts_file_records_witness :
  fst (run posix (Some demo_tree)) = Normal
  /\ folderCount (snd (run posix (Some demo_tree)))
     + fileCount (snd (run posix (Some demo_tree))) = 8.
Proof.
  split; [reflexivity|].
  exact (proj2 (fileCount_counts_file_records posix (Some demo_tree)) eq_refl).
Defined.

(** X3. Whether the run completes or throws, [parseWarnings] is the number
    of records of pages left without sitemap marker: file records with
    extension [.html] whose sitemap field is null. *)
Theorem parseWarnings_counts_unparsed_pages (P : platform)
    (root : option (list dirent)) :
  parseWarnings (snd (run P root)) = count is_unparsed (output (snd (run P root))).
Proof. apply run_tallied. Qed.

(** ** Fatal errors *)

Lemma for_entries_Normal_accessible (P : platform) (dir : fspath) (es : list dirent) :
  Forall (fun e => forall d st, fst (visit P d e st) = Normal -> accessible e = true) es ->
  forall st, fst (for_entries P dir es st) = Normal -> forallb accessible es = true.
Proof.
  induction 1 as [|e es He Hes IH]; intros st Hn; [reflexivity|].
  cbn [for_entries] in Hn. cbn [forallb]. specialize (He dir st).
  destruct (visit P dir e st) as [[|err] st']; cbn [fst] in He, Hn.
  - now rewrite (He eq_refl), (IH st' Hn).
  - discriminate.
Qed.

Lemma visit_Normal_accessible (P : platform) (e : dirent) :
  forall dir st, fst (visit P dir e st) = Normal -> accessible e = true.
Proof.
  induction e as [nm sz c|nm|nm es IH] using dirent_tree_ind; intros dir st Hn.
  - destruct sz; [reflexivity|discriminate].
  - rewrite visit_Dir in Hn. discriminate.
  - rewrite visit_Dir in Hn. cbn [walk] in Hn. cbn [accessible].
    now apply (for_entries_Normal_accessible P _ es IH _ Hn).
Qed.

(** X4. No failure of [fs.readdirSync] or [fs.statSync] is swallowed: the
    run completes exactly when the root can be listed and every folder below
    it can be listed and every file can be stat'ed. *)
Theorem run_completes_iff_accessible (P : platform) (root : option (list dirent)) :
  fst (run P root) = Normal <->
  exists es, root = Some es /\ forallb accessible es = true.
Proof.
  split.
  - destruct root as [es|]; [|discriminate]. intro Hn. exists es.
    split; [reflexivity|]. unfold run in Hn. cbn [walk] in Hn.
    apply (for_entries_Normal_accessible P [] es) with (st := initial); [|exact Hn].
    apply Forall_forall. intros e _. apply visit_Normal_accessible.
  - intros [es [-> Hacc]]. unfold run.
    now rewrite (walk_accessible P [] es initial Hacc).
Qed.

Lemma for_entries_readdir_failed (P : platform) (dir : fspath) (es : list dirent) :
  Forall (fun e => forall d st p st',
            visit P d e st = (Throw (readdir_failed p), st') ->
            exists front d' nm, p = path_join d' nm
                                /\ output st' = front ++ [folder_record P d' nm]) es ->
  forall st p st', for_entries P dir es st = (Throw (readdir_failed p), st') ->
  exists front d' nm, p = path_join d' nm
                      /\ output st' = front ++ [folder_record P d' nm].
Proof.
  induction 1 as [|e es He Hes IH]; intros st p st' Hrun; [discriminate|].
  cbn [for_entries] in Hrun. specialize (He dir st p).
  destruct (visit P dir e st) as [[|err] s1].
  - exact (IH s1 p st' Hrun).
  - injection Hrun as Ee Es. subst err s1. now apply (He st').
Qed.

Lemma visit_readdir_failed (P : platform) (e : dirent) :
  forall dir st p st',
  visit P dir e st = (Throw (readdir_failed p), st') ->
  exists front d' nm, p = path_join d' nm
                      /\ output st' = front ++ [folder_record P d' nm].
Proof.
  induction e as [nm sz c|nm|nm es IH] using dirent_tree_ind; intros dir st p st' Hrun.
  - destruct sz as [sz|].
    + rewrite visit_File in Hrun. discriminate.
    + cbn in Hrun. discriminate.
  - rewrite visit_Dir in Hrun. cbn [walk] in Hrun. injection Hrun as <- <-.
    exists (output (incr_folderCount st)), dir, nm. split; reflexivity.
  - rewrite visit_Dir in Hrun. cbn [walk] in Hrun.
    exact (for_entries_readdir_failed P _ es IH _ p st' Hrun).
Qed.

(** X5. A folder that cannot be listed is recorded before the run stops:
    when the run throws on the listing of a folder below the root, the last
    record of the output is the record of that folder. *)
Theorem unlisted_folder_recorded_last (P : platform) (root : list dirent)
    (p : fspath) (st : state) :
  run P (Some root) = (Throw (readdir_failed p), st) ->
  exists front dir nm,
    p = path_join dir nm /\ output st = front ++ [folder_record P dir nm].
Proof.
  unfold run. cbn [walk]. apply for_entries_readdir_failed.
  apply Forall_forall. intros e _. apply visit_readdir_failed.
Qed.

Lemma unlisted_folder_recorded_last_witness :
  exists front dir nm,
    [str "assets"; str "locked"] = path_join dir nm
    /\ [folder_record posix [] (str "assets");
        folder_record posix [str "assets"] (str "locked")]
       = front ++ [folder_record posix dir nm].
Proof.
  apply (unlisted_folder_recorded_last posix
           [Dir (str "assets") (Some [Dir (str "locked") None;
                                      File (str "b.txt") (Some 1%Z) None])]
           [str "assets"; str "locked"]
           (mkState [folder_record posix [] (str "assets");
                     folder_record posix [str "assets"] (str "locked")] 2 0 0)).
  reflexivity.
Defined.

(** ** The host *)

Lemma relativePath_of_host (p : fspath) :
  relativePath_of posix p = relativePath_of win32 p.
Proof. now rewrite !relativePath_of_join. Qed.

Lemma folder_record_host (dir : fspath) (nm : jsstring) :
  folder_record posix dir nm = folder_record win32 dir nm.
Proof. unfold folder_record. now rewrite relativePath_of_host. Qed.

Lemma file_record_host (dir : fspath) (nm : jsstring) (sz : Z)
    (contents : option jsstring) :
  file_record posix dir nm sz contents = file_record win32 dir nm sz contents.
Proof. unfold file_record. now rewrite relativePath_of_host. Qed.

Lemma for_entries_host (dir : fspath) (es : list dirent) :
  Forall (fun e => forall d st, visit posix d e st = visit win32 d e st) es ->
  forall st, for_entries posix dir es st = for_entries win32 dir es st.
Proof.
  induction 1 as [|e es He Hes IH]; intro st; [reflexivity|].
  cbn [for_entries]. rewrite He.
  destruct (visit win32 dir e st) as [[|err] st']; [apply IH|reflexivity].
Qed.

Lemma visit_host (e : dirent) :
  forall dir st, visit posix dir e st = visit win32 dir e st.
Proof.
  induction e as [nm sz c|nm|nm es IH] using dirent_tree_ind; intros dir st.
  - destruct sz as [sz|]; [|reflexivity].
    now rewrite !visit_File, file_record_host.
  - now rewrite !visit_Dir, folder_record_host.
  - rewrite !visit_Dir, folder_record_host. cbn [walk].
    now apply for_entries_host.
Qed.

(** X6. The run does not depend on the separator of the host: on the same
    tree of names, a POSIX host and a Windows host end in the same state,
    with the same records and the same recorded paths. *)
Theorem run_host_independent (root : option (list dirent)) :
  run posix root = run win32 root.
Proof.
  destruct root as [es|]; [|reflexivity]. unfold run. cbn [walk].
  apply for_entries_host. apply Forall_forall. intros e _. apply visit_host.
Qed.

(** ** Walking from a state that is not the initial one *)

Lemma combine_initial (st : state) : combine st initial = st.
Proof.
  destruct st. unfold combine. cbn. now rewrite app_nil_r, !Nat.add_0_r.
Qed.

Lemma push_combine (r : record) (st s : state) :
  push r (combine st s) = combine st (push r s).
Proof. unfold push, combine. cbn. now rewrite app_assoc. Qed.

Lemma incr_folderCount_combine (st s : state) :
  incr_folderCount (combine st s) = combine st (incr_folderCount s).
Proof. unfold incr_folderCount, combine. cbn. now rewrite Nat.add_succ_r. Qed.

Lemma incr_fileCount_combine (st s : state) :
  incr_fileCount (combine st s) = combine st (incr_fileCount s).
Proof. unfold incr_fileCount, combine. cbn. now rewrite Nat.add_succ_r. Qed.

Lemma incr_parseWarnings_combine (st s : state) :
  incr_parseWarnings (combine st s) = combine st (incr_parseWarnings s).
Proof. unfold incr_parseWarnings, combine. cbn. now rewrite Nat.add_succ_r. Qed.

Lemma for_entries_combine (P : platform) (dir : fspath) (es : list dirent) :
  Forall (fun e => forall d st s,
            visit P d e (combine st s) = moved st (visit P d e s)) es ->
  forall st s, for_entries P dir es (combine st s) = moved st (for_entries P dir es s).
Proof.
  induction 1 as [|e es He Hes IH]; intros st s; [reflexivity|].
  cbn [for_entries]. rewrite He. unfold moved at 1.
  destruct (visit P dir e s) as [[|err] s1]; cbn [fst snd]; [apply IH|reflexivity].
Qed.

Lemma visit_combine (P : platform) (e : dirent) :
  forall dir st s, visit P dir e (combine st s) = moved st (visit P dir e s).
Proof.
  induction e as [nm sz c|nm|nm es IH] using dirent_tree_ind; intros dir st s.
  - destruct sz as [sz|].
    + rewrite !visit_File. unfold moved. cbn [fst snd]. f_equal.
      destruct c; [|destruct (is_html nm)];
        now rewrite incr_fileCount_combine, ?incr_parseWarnings_combine, push_combine.
    + cbn [visit]. unfold moved. cbn [fst snd]. now rewrite incr_fileCount_combine.
  - rewrite !visit_Dir. cbn [walk]. unfold moved. cbn [fst snd].
    now rewrite incr_folderCount_combine, push_combine.
  - rewrite !visit_Dir. cbn [walk].
    rewrite incr_folderCount_combine, push_combine. now apply for_entries_combine.
Qed.

(** X7. What [walk] adds does not depend on what is already there: called
    in any state, it completes or throws as it does from the initial state,
    appends the same records to [output] and adds the same amounts to the
    three counters. *)
Theorem walk_from_any_state (P : platform) (dir : fspath)
    (listing : option (list dirent)) (st : state) :
  walk P dir listing st =
  (fst (walk P dir listing initial), combine st (snd (walk P dir listing initial))).
Proof.
  destruct listing as [es|].
  - cbn [walk]. rewrite <- (combine_initial st) at 1.
    apply for_entries_combine. apply Forall_forall. intros e _. apply visit_combine.
  - cbn [walk fst snd]. now rewrite combine_initial.
Qed.

(** ** The folders above a record *)

Lemma join_split (s : jsstring) : join_with slash (split_slash s) = s.
Proof.
  induction s as [|c s IH]; [reflexivity|].
  cbn [split_slash]. destruct (Ascii.eqb_spec c slash) as [->|N].
  - destruct (split_slash s) as [|h t] eqn:E.
    + now destruct (split_slash_nonempty s).
    + change (join_with slash ([] :: h :: t)) with (slash :: join_with slash (h :: t)).
      now rewrite IH.
  - destruct (split_slash s) as [|h t] eqn:E.
    + now destruct (split_slash_nonempty s).
    + rewrite <- IH. now destruct t.
Qed.

Lemma entry_items_below (e : dirent) :
  forall dir it, In it (entry_items dir e) ->
  exists r, fst it = dir ++ entry_name e :: r.
Proof.
  induction e as [nm sz c|nm|nm es IH] using dirent_tree_ind; intros dir it Hin.
  - destruct sz; [|contradiction]. destruct Hin as [<-|[]]. now exists [].
  - destruct Hin as [<-|[]]. now exists [].
  - cbn [entry_items] in Hin. destruct Hin as [<-|Hin]; [now exists []|].
    apply in_flat_map in Hin as [e [He Hit]]. rewrite Forall_forall in IH.
    destruct (IH e He _ it Hit) as [r Hr]. exists (entry_name e :: r).
    rewrite Hr. unfold path_join. now rewrite <- app_assoc.
Qed.

Lemma two_parts_not_one {A : Type} (a b : list A) (x : A) :
  a <> [] -> b <> [] -> a ++ b <> [x].
Proof.
  intros Ha Hb E. destruct a as [|y a]; [congruence|].
  cbn in E. injection E as _ E. apply app_eq_nil in E as [_ E]. congruence.
Qed.

(** Above every item of a tree there are its folders. *)
Lemma entry_items_ancestor (e : dirent) :
  forall dir a b t, a <> [] -> b <> [] ->
  In (dir ++ a ++ b, t) (entry_items dir e) ->
  In (dir ++ a, folder) (entry_items dir e).
Proof.
  induction e as [nm sz c|nm|nm es IH] using dirent_tree_ind;
    intros dir a b t Ha Hb Hin.
  - exfalso. destruct sz; [|contradiction]. destruct Hin as [E|[]].
    injection E as E _. unfold path_join in E. apply app_inv_head in E.
    symmetry in E. now apply two_parts_not_one in E.
  - exfalso. destruct Hin as [E|[]].
    injection E as E _. unfold path_join in E. apply app_inv_head in E.
    symmetry in E. now apply two_parts_not_one in E.
  - cbn [entry_items] in Hin |- *. destruct Hin as [E|Hin].
    + exfalso. injection E as E _. unfold path_join in E. apply app_inv_head in E.
      symmetry in E. now apply two_parts_not_one in E.
    + apply in_flat_map in Hin as [e [He Hit]].
      destruct (entry_items_below e _ _ Hit) as [r Hr]. cbn [fst] in Hr.
      unfold path_join in Hr. rewrite <- app_assoc in Hr. apply app_inv_head in Hr.
      destruct a as [|x a]; [congruence|]. cbn in Hr. injection Hr as -> Hr.
      destruct a as [|y a].
      * left. reflexivity.
      * right. apply in_flat_map. exists e. split; [exact He|].
        rewrite Forall_forall in IH.
        replace (dir ++ nm :: y :: a) with (path_join dir nm ++ (y :: a))
          by (unfold path_join; now rewrite <- app_assoc).
        apply (IH e He (path_join dir nm) (y :: a) b t); [discriminate|exact Hb|].
        replace (path_join dir nm ++ (y :: a) ++ b) with (dir ++ (nm :: y :: a) ++ b)
          by (unfold path_join; now rewrite <- app_assoc).
        exact Hit.
Qed.

(** X8. When no name of the tree contains a backslash (names being
    non-empty components without slash, distinct within a folder), every
    folder above a recorded entry is recorded before it: if the path of a
    record is [parent], a slash and more, an earlier record of the output is
    a folder record with path [parent]. *)
Theorem ancestors_recorded_before (P : platform) (root : list dirent) (j : nat)
    (r : record) (parent rest : jsstring) :
  well_named_listing plain_name root = true ->
  nth_error (output (snd (run P (Some root)))) j = Some r ->
  path r = parent ++ slash :: rest ->
  exists i r',
    i < j /\ nth_error (output (snd (run P (Some root)))) i = Some r'
    /\ type r' = folder /\ path r' = parent.
Proof.
  intros Hwn Hj Hpath.
  pose proof (run_output_nth P root j r Hj) as Hj'.
  destruct (nth_error_key P [] root j r Hj') as [y [Hy [Hpy _]]].
  destruct (listing_items_plain root y Hwn (nth_error_In _ _ Hy)) as [Hyn Hyp].
  rewrite Hpy, plain_names_join in Hpath by assumption.
  apply (f_equal split_slash) in Hpath.
  rewrite split_slash_app, plain_names_split in Hpath by assumption.
  assert (In (split_slash parent, folder) (listing_items [] root)) as Hin.
  { pose proof (nth_error_In _ _ Hy) as Hy'.
    apply in_flat_map in Hy' as [e [He Hit]]. apply in_flat_map. exists e.
    split; [exact He|].
    apply (entry_items_ancestor e [] (split_slash parent) (split_slash rest) (snd y));
      try apply split_slash_nonempty.
    cbn [app]. rewrite <- Hpath. now destruct y. }
  apply In_nth_error in Hin as [i Hi].
  assert (i < j) as Hlt.
  { apply (preordered_index (listing_items [] root) i j (split_slash parent, folder) y).
    - now apply (well_named_listing_preordered plain_name).
    - exact Hi.
    - exact Hy.
    - now exists (split_slash rest).
    - intros E. rewrite E in Hi. pose proof (eq_trans (eq_sym Hy) Hi) as Ey.
      injection Ey as Ey. subst y. cbn [fst] in Hpath.
      rewrite <- (app_nil_r (split_slash parent)) in Hpath at 1.
      apply app_inv_head in Hpath. symmetry in Hpath.
      now apply split_slash_nonempty in Hpath. }
  assert (j < length (output (snd (run P (Some root))))) as Hjlen.
  { apply nth_error_Some. congruence. }
  destruct (nth_error (output (snd (run P (Some root)))) i) as [r'|] eqn:Hi';
    [|apply nth_error_None in Hi'; lia].
  exists i, r'. split; [exact Hlt|]. split; [exact Hi'|].
  pose proof (run_output_nth P root i r' Hi') as Hi''.
  destruct (nth_error_key P [] root i r' Hi'') as [x [Hx [Hpx Htx]]].
  pose proof (eq_trans (eq_sym Hx) Hi) as Ex. injection Ex as Ex. subst x.
  cbn [fst snd] in Hpx, Htx.
  split; [exact Htx|].
  rewrite Hpx, plain_names_join, join_split; [reflexivity|].
  rewrite Hpath, forallb_app in Hyp. now apply andb_prop in Hyp as [Hyp _].
Qed.

Lemma ancestors_recorded_before_witness :
  well_named_listing plain_name demo_tree = true /\
  exists i r',
    i < 2 /\ nth_error (output (snd (run win32 (Some demo_tree)))) i = Some r'
    /\ type r' = folder /\ path r' = str "assets/js".
Proof.
  split; [reflexivity|].
  apply (ancestors_recorded_before win32 demo_tree 2
           (file_record win32 [str "assets"; str "js"] (str "export-index-tree.js")
              7012%Z None)
           (str "assets/js") (str "export-index-tree.js")); reflexivity.
Defined.

(** ** The fields read from a page *)

Lemma entry_records_cases (P : platform) (e : dirent) :
  forall dir r, In r (entry_records P dir e) ->
  (exists d nm, r = folder_record P d nm)
  \/ (exists d nm sz c, r = file_record P d nm sz c).
Proof.
  induction e as [nm sz c|nm|nm es IH] using dirent_tree_ind; intros dir r Hin.
  - destruct sz as [sz|]; [|contradiction]. destruct Hin as [<-|[]].
    right. now exists dir, nm, sz, c.
  - destruct Hin as [<-|[]]. left. now exists dir, nm.
  - cbn [entry_records] in Hin. destruct Hin as [<-|Hin].
    + left. now exists dir, nm.
    + apply in_flat_map in Hin as [e [He Hr]]. rewrite Forall_forall in IH.
      apply (IH e He _ r Hr).
Qed.

Lemma run_record_cases (P : platform) (root : list dirent) (r : record) :
  In r (output (snd (run P (Some root)))) ->
  (exists d nm, r = folder_record P d nm)
  \/ (exists d nm sz c, r = file_record P d nm sz c).
Proof.
  intro H. apply run_output_In in H. apply in_flat_map in H as [e [_ Hr]].
  now apply (entry_records_cases P e [] r).
Qed.

(** X11. The fields read from a page are null for everything that is not a
    page: in every record whose extension is not [.html] the title and the
    sitemap marker are null; a title never comes without a sitemap marker;
    and a record with a sitemap marker has the extension [.html] and the
    category [markup]. *)
Theorem page_fields_only_for_pages (P : platform) (root : list dirent) (r : record) :
  In r (output (snd (run P (Some root)))) ->
  (ext r <> Some (str ".html") -> title r = None /\ sitemap r = None)
  /\ (title r <> None -> sitemap r <> None)
  /\ (sitemap r <> None ->
      type r = file /\ ext r = Some (str ".html") /\ category r = Some (str "markup")).
Proof.
  intro Hin. destruct (run_record_cases P root r Hin)
    as [[d [nm ->]]|[d [nm [sz [c ->]]]]].
  - cbn. repeat split; congruence.
  - unfold file_record. cbn [ext title sitemap type category].
    destruct (is_html nm) eqn:Eh.
    + rewrite (is_html_ext nm Eh). destruct c as [c|].
      * repeat split; congruence.
      * repeat split; congruence.
    + split; [now split|]. split; congruence.
Qed.

Lemma page_fields_only_for_pages_witness :
  title (file_record posix [] (str "README") 5%Z (Some [])) = None
  /\ sitemap (file_record posix [] (str "README") 5%Z (Some [])) = None.
Proof.
  apply (page_fields_only_for_pages posix demo_tree
           (file_record posix [] (str "README") 5%Z (Some []))).
  - cbv. tauto.
  - discriminate.
Defined.

(** *** The title *)

Lemma trimStart_suffix (s : jsstring) : exists ws, s = ws ++ trimStart s.
Proof.
  induction s as [|c s [ws IH]]; [now exists []|].
  cbn [trimStart]. destruct (is_space c).
  - exists (c :: ws). cbn. now rewrite <- IH.
  - now exists [].
Qed.

Lemma trimStart_head (s : jsstring) (c : ascii) (t : jsstring) :
  trimStart s = c :: t -> is_space c = false.
Proof.
  induction s as [|x s IH]; cbn [trimStart]; [discriminate|].
  destruct (is_space x) eqn:Ex; [exact IH|]. intro E. now injection E as <- _.
Qed.

Lemma trimStart_keeps_last (l : jsstring) (c : ascii) :
  is_space c = false -> exists l', trimStart (l ++ [c]) = l' ++ [c].
Proof.
  intro Hc. induction l as [|x l [l' IH]].
  - exists []. cbn. now rewrite Hc.
  - cbn [app trimStart]. destruct (is_space x).
    + now exists l'.
    + now exists (x :: l).
Qed.

Lemma one_line_rev (s : jsstring) : one_line s -> one_line (rev s).
Proof.
  unfold one_line. rewrite !forallb_forall. intros H x Hx.
  apply H. now apply in_rev.
Qed.

Lemma one_line_trimStart (s : jsstring) : one_line s -> one_line (trimStart s).
Proof.
  destruct (trimStart_suffix s) as [ws E]. intro H. rewrite E in H.
  now apply one_line_app in H.
Qed.

Lemma one_line_trim (s : jsstring) : one_line s -> one_line (trim s).
Proof.
  intro H. unfold trim, trimEnd.
  now apply one_line_rev, one_line_trimStart, one_line_rev, one_line_trimStart.
Qed.

Lemma trim_trimmed (s : jsstring) : trimmed (trim s).
Proof.
  unfold trim, trimEnd. destruct (trimStart s) as [|c u] eqn:Eu; [exact I|].
  pose proof (trimStart_head s c u Eu) as Hc.
  cbn [rev]. destruct (trimStart_keeps_last (rev u) c Hc) as [l' El'].
  destruct (trimStart (rev u ++ [c])) as [|d v] eqn:Ev.
  - now destruct l'.
  - pose proof (trimStart_head _ d v Ev) as Hd.
    assert (rev (d :: v) = c :: rev l') as Ehead.
    { rewrite El', rev_app_distr. reflexivity. }
    rewrite Ehead. unfold trimmed. split; [exact Hc|].
    rewrite <- Ehead. cbn [rev]. now rewrite last_last.
Qed.

Lemma html_title_clean (c t : jsstring) :
  html_title c = Some t -> one_line t /\ trimmed t.
Proof.
  unfold html_title. destruct (re_match title_re c) as [inner|] eqn:E; [|discriminate].
  intro H. injection H as <-. split; [|apply trim_trimmed].
  apply one_line_trim. apply re_match_title in E as [i [[pre [s [_ [_ Hs]]]] _]].
  destruct Hs as [o [cl [post [_ [_ [Hl _]]]]]]. exact Hl.
Qed.

(** X9. Every title of the output is on one line and trimmed: it contains
    no line terminator and neither begins nor ends with white space. *)
Theorem titles_are_one_line_and_trimmed (P : platform) (root : list dirent)
    (r : record) (t : jsstring) :
  In r (output (snd (run P (Some root)))) ->
  title r = Some t ->
  one_line t /\ trimmed t.
Proof.
  intros Hin Ht. destruct (run_record_cases P root r Hin)
    as [[d [nm ->]]|[d [nm [sz [c ->]]]]]; [discriminate|].
  unfold file_record in Ht. cbn [title] in Ht.
  destruct (is_html nm); [|discriminate]. destruct c as [c|]; [|discriminate].
  now apply (html_title_clean c).
Qed.

Lemma titles_are_one_line_and_trimmed_witness :
  one_line (str "Hello") /\ trimmed (str "Hello").
Proof.
  apply (titles_are_one_line_and_trimmed posix demo_tree
           (file_record posix [] (str "a.html") 59%Z (Some hello_page))).
  - cbv. tauto.
  - reflexivity.
Defined.

(** *** The sitemap marker *)

Ltac by_cases_on_char c :=
  destruct c as [[] [] [] [] [] [] [] []]; vm_compute; reflexivity.

Lemma lower_char_idempotent (c : ascii) : lower_char (lower_char c) = lower_char c.
Proof. by_cases_on_char c. Qed.

Lemma lower_char_quote (c : ascii) : is_quote (lower_char c) = is_quote c.
Proof. by_cases_on_char c. Qed.

Lemma lower_char_line_terminator (c : ascii) :
  is_line_terminator (lower_char c) = is_line_terminator c.
Proof. by_cases_on_char c. Qed.

Lemma lower_char_dot (c : ascii) : Ascii.eqb (lower_char c) dot = Ascii.eqb c dot.
Proof. by_cases_on_char c. Qed.

Lemma toLowerCase_idempotent (s : jsstring) : toLowerCase (toLowerCase s) = toLowerCase s.
Proof.
  unfold toLowerCase. rewrite map_map. apply map_ext. apply lower_char_idempotent.
Qed.

Lemma one_line_toLowerCase (s : jsstring) : one_line s -> one_line (toLowerCase s).
Proof.
  unfold one_line, toLowerCase. induction s as [|c s IH]; [reflexivity|].
  cbn [map forallb]. rewrite lower_char_line_terminator. intro H.
  apply andb_prop in H as [Hc Hs]. now rewrite Hc, (IH Hs).
Qed.

Lemma no_quote_toLowerCase (s : jsstring) : no_quote s -> no_quote (toLowerCase s).
Proof.
  unfold no_quote, toLowerCase. induction s as [|c s IH]; [reflexivity|].
  cbn [map forallb]. rewrite lower_char_quote. intro H.
  apply andb_prop in H as [Hc Hs]. now rewrite Hc, (IH Hs).
Qed.

Lemma html_sitemap_normal (c : jsstring) :
  toLowerCase (html_sitemap c) = html_sitemap c
  /\ one_line (html_sitemap c) /\ no_quote (html_sitemap c).
Proof.
  unfold html_sitemap. destruct (re_match sitemap_re c) as [v|] eqn:E.
  - apply re_match_sitemap in E as [i [[pre [s [_ [_ Hs]]]] _]].
    destruct Hs as [m [ws1 [n [q1 [w [q2 [ws2 [ct [q3 [q4 [post H]]]]]]]]]]].
    destruct H as [_ [_ [_ [_ [_ [_ [_ [_ [_ [_ [Hl [Hq _]]]]]]]]]]]].
    split; [apply toLowerCase_idempotent|].
    split; [now apply one_line_toLowerCase|now apply no_quote_toLowerCase].
  - repeat split.
Qed.

(** X10. Every sitemap marker of the output is in normal form: lower-casing
    leaves it unchanged, and it contains no quote and no line terminator. *)
Theorem sitemap_markers_are_normal (P : platform) (root : list dirent)
    (r : record) (v : jsstring) :
  In r (output (snd (run P (Some root)))) ->
  sitemap r = Some v ->
  toLowerCase v = v /\ one_line v /\ no_quote v.
Proof.
  intros Hin Hv. destruct (run_record_cases P root r Hin)
    as [[d [nm ->]]|[d [nm [sz [c ->]]]]]; [discriminate|].
  unfold file_record in Hv. cbn [sitemap] in Hv.
  destruct (is_html nm); [|discriminate]. destruct c as [c|]; [|discriminate].
  injection Hv as <-. apply html_sitemap_normal.
Qed.

Lemma sitemap_markers_are_normal_witness :
  toLowerCase (str "exclude") = str "exclude"
  /\ one_line (str "exclude") /\ no_quote (str "exclude").
Proof.
  apply (sitemap_markers_are_normal posix demo_tree
           (file_record posix [] (str "a.html") 59%Z (Some hello_page))).
  - cbv. tauto.
  - reflexivity.
Defined.

(** ** Classification and the case of letters *)

Lemma last_dot_toLowerCase (s : jsstring) :
  last_dot (toLowerCase s) = option_map toLowerCase (last_dot s).
Proof.
  induction s as [|c s IH]; [reflexivity|].
  cbn [toLowerCase map last_dot]. fold (toLowerCase s). rewrite IH.
  destruct (last_dot s); [reflexivity|]. cbn [option_map].
  rewrite lower_char_dot. now destruct (Ascii.eqb c dot).
Qed.

Lemma lower_char_is_dot (c : ascii) : lower_char c = dot -> c = dot.
Proof.
  intro H. apply Ascii.eqb_eq. rewrite <- lower_char_dot. now apply Ascii.eqb_eq.
Qed.

Lemma toLowerCase_dots (nm : jsstring) :
  jsstring_eqb (toLowerCase nm) (str "..") = jsstring_eqb nm (str "..").
Proof.
  destruct (jsstring_eqb nm (str "..")) eqn:E.
  - apply jsstring_eqb_eq in E. now subst nm.
  - apply jsstring_eqb_neq. apply jsstring_eqb_neq in E. intro H. apply E.
    destruct nm as [|a [|b [|x nm]]]; try discriminate.
    cbn in H. injection H as Ha Hb.
    now rewrite (lower_char_is_dot a Ha), (lower_char_is_dot b Hb).
Qed.

(** The extension of the lower-cased name is the lower-cased extension. *)
Lemma extname_toLowerCase (nm : jsstring) :
  extname (toLowerCase nm) = toLowerCase (extname nm).
Proof.
  unfold extname. destruct nm as [|c rest]; [reflexivity|].
  cbn [toLowerCase map]. fold (toLowerCase rest).
  rewrite last_dot_toLowerCase. destruct (last_dot rest) as [e|]; [|reflexivity].
  cbn [option_map].
  change (lower_char c :: toLowerCase rest) with (toLowerCase (c :: rest)).
  rewrite toLowerCase_dots. now destruct (jsstring_eqb (c :: rest) (str "..")).
Qed.

(** X12. For names written with the characters of the model, the code
    units of the Latin-1 range, classification does not depend on the case of
    the letters: two file records, of the same run or not, whose names are
    equal up to case have the same extension field and the same category. *)
Theorem classification_ignores_case (P1 P2 : platform) (root1 root2 : list dirent)
    (r1 r2 : record) :
  In r1 (output (snd (run P1 (Some root1)))) ->
  In r2 (output (snd (run P2 (Some root2)))) ->
  type r1 = file -> type r2 = file ->
  toLowerCase (name r1) = toLowerCase (name r2) ->
  ext r1 = ext r2 /\ category r1 = category r2.
Proof.
  intros H1 H2 T1 T2 Hn.
  apply run_record_shape in H1, H2. unfold record_shape in H1, H2.
  rewrite T1 in H1. rewrite T2 in H2.
  destruct H1 as [E1 [C1 _]]. destruct H2 as [E2 [C2 _]].
  rewrite E1, E2, C1, C2, <- !extname_toLowerCase, Hn. now split.
Qed.

Lemma classification_ignores_case_witness :
  ext (file_record posix [] (str "broken.HTML") 10%Z None)
    = ext (file_record win32 [] (str "Broken.html") 7%Z (Some []))
  /\ category (file_record posix [] (str "broken.HTML") 10%Z None)
    = category (file_record win32 [] (str "Broken.html") 7%Z (Some [])).
Proof.
  apply (classification_ignores_case posix win32 demo_tree
           [File (str "Broken.html") (Some 7%Z) (Some [])]).
  - cbv. tauto.
  - cbv. tauto.
  - reflexivity.
  - reflexivity.
  - reflexivity.
Defined.
